(** * Markov-chain text generator and frequency summariser

    A shallow embedding of [src/services/text_generation.py]: the classes
    [MarkovChainGenerator] and [TextSummarizer], with the parts of the Python
    runtime they call ([str] methods, the two regular expressions,
    [random.choice], [sorted], [Counter], [defaultdict]). *)

From Stdlib Require Import ZArith NArith Ascii String Lia.
From stdpp Require Import base decidable option list gmap strings sorting.

Local Open Scope Z_scope.

(** ** Python strings

    A Python [str] is a sequence of Unicode code points. *)

Abbreviation char := N (only parsing).
Abbreviation str := (list N) (only parsing).

(** An ASCII literal, one code point per byte. *)
Definition lit (s : string) : str :=
  map N_of_ascii (list_ascii_of_string s).

(** A literal of the source file, which is UTF-8: sequences of one to four
    bytes are put together into one code point each. *)
Fixpoint utf8_go (need : nat) (acc : N) (bs : list N) : str :=
  match bs with
  | [] => []
  | b :: bs' =>
      match need with
      | S n =>
          let acc' := (acc * 64 + b mod 64)%N in
          match n with
          | O => acc' :: utf8_go O 0%N bs'
          | S _ => utf8_go n acc' bs'
          end
      | O =>
          if (b <? 128)%N then b :: utf8_go O 0%N bs'
          else if (b <? 224)%N then utf8_go 1 (b mod 32)%N bs'
          else if (b <? 240)%N then utf8_go 2 (b mod 16)%N bs'
          else utf8_go 3 (b mod 8)%N bs'
      end
  end.

Definition utf8 (s : string) : str := utf8_go O 0%N (lit s).

(** The character tables of the Python runtime.  They belong to the
    interpreter and not to this repository, so the development is
    parametric in them; [ascii_tables] below gives their values on ASCII. *)
Class Unicode := {
  (** [c.isspace()], also the class [\s] of [re] *)
  isspace : char → bool;
  (** [c.isalnum()]; the class [\w] of [re] is this or an underscore *)
  isalnum : char → bool;
  (** [c.isupper()] *)
  isupper : char → bool;
  (** [s.lower()] *)
  lower : str → str;
  (** the case [s.capitalize()] gives the first character [c]: [c.upper()]
      (the title case since Python 3.8, which differs for a few digraph
      letters only); it may be several code points *)
  upper : char → str;
}.

Definition between (lo hi c : N) : bool := ((lo <=? c) && (c <=? hi))%N.

(** The tables on ASCII.  A code point above 127 is taken for a character
    that is neither whitespace nor alphanumeric and has no case, which is
    right for the three such characters of the corpus, the two typographic
    quotes and the dash. *)
#[export] Instance ascii_tables : Unicode := {|
  isspace c := between 9 13 c || between 28 32 c;
  isalnum c := between 48 57 c || between 65 90 c || between 97 122 c;
  isupper c := between 65 90 c;
  lower := map (λ c, if between 65 90 c then (c + 32)%N else c);
  upper c := [if between 97 122 c then (c - 32)%N else c];
|}.

Section Python.
Context {U : Unicode}.

(** [s.strip()] *)
Fixpoint lstrip (s : str) : str :=
  match s with
  | c :: s' => if isspace c then lstrip s' else s
  | [] => []
  end.

Definition strip (s : str) : str := reverse (lstrip (reverse (lstrip s))).

(** [s.capitalize()]: first character upper-cased, the rest lower-cased. *)
Definition capitalize (s : str) : str :=
  match s with
  | [] => []
  | c :: s' => upper c ++ lower s'
  end.

(** [sep.join(parts)] *)
Fixpoint join (sep : str) (parts : list str) : str :=
  match parts with
  | [] => []
  | [p] => p
  | p :: ps => p ++ sep ++ join sep ps
  end.

(** ** The two regular expressions *)

(** The class [\w]. *)
Definition is_word (c : char) : bool := isalnum c || (c =? 95)%N.

(** [re.findall(r"\b\w+\b", s)].  A match has to begin at a word boundary,
    [\w+] is greedy and the run it takes already ends at a boundary, so the
    matches are the maximal runs of word characters, left to right.  [cur]
    is the run being read, in reverse. *)
Definition flush (cur : str) : list str :=
  match cur with [] => [] | _ => [reverse cur] end.

Fixpoint findall_go (cur : str) (s : str) : list str :=
  match s with
  | [] => flush cur
  | c :: s' =>
      if is_word c then findall_go (c :: cur) s'
      else flush cur ++ findall_go [] s'
  end.

Definition findall_words (s : str) : list str := findall_go [] s.

(** The class [[.!?]]. *)
Definition is_terminator (c : char) : bool :=
  (c =? 46)%N || (c =? 33)%N || (c =? 63)%N.

Definition cons_head (c : char) (pieces : list str) : list str :=
  match pieces with
  | [] => [[c]]
  | p :: ps => (c :: p) :: ps
  end.

(** [re.split(r"(?<=[.!?])\s+", s)].  A separator begins at a whitespace
    character whose predecessor is one of [.!?], and [\s+] takes the whole
    run of whitespace from there.  [prev] is the character before the
    position read ([None] at the start), [insep] tells that the position is
    inside a separator.  The result always has at least one piece. *)
Fixpoint split_go (prev : option char) (insep : bool) (s : str) : list str :=
  match s with
  | [] => [[]]
  | c :: s' =>
      if isspace c && insep then split_go (Some c) true s'
      else if isspace c && from_option is_terminator false prev
      then [] :: split_go (Some c) true s'
      else cons_head c (split_go (Some c) false s')
  end.

Definition split_sentences (s : str) : list str := split_go None false s.

(** [s.split(sep)] for a separator of one character. *)
Fixpoint split_on (sep : char) (s : str) : list str :=
  match s with
  | [] => [[]]
  | c :: s' =>
      if (c =? sep)%N then [] :: split_on sep s'
      else cons_head c (split_on sep s')
  end.

(** [s.split()]: the maximal runs of characters that are no whitespace,
    left to right; the empty string and a string of whitespace have none.
    [cur] is the run being read, in reverse. *)
Fixpoint split_runs (cur : str) (s : str) : list str :=
  match s with
  | [] => flush cur
  | c :: s' =>
      if isspace c then flush cur ++ split_runs [] s'
      else split_runs (c :: cur) s'
  end.

Definition split_words (s : str) : list str := split_runs [] s.

(** ** [sorted], slices *)

(** [sorted(l, key=key)] is stable: elements with equal keys keep their
    order.  Insertion from the right, where the new element goes before the
    first element whose key is not smaller, has this property. *)
Section Sorted.
Context {A K : Type} (lt : K → K → bool) (key : A → K).

Fixpoint insert_sorted (x : A) (l : list A) : list A :=
  match l with
  | [] => [x]
  | y :: l' =>
      if lt (key y) (key x) then y :: insert_sorted x l' else x :: l
  end.

Definition sorted (l : list A) : list A := foldr insert_sorted [] l.
End Sorted.

End Python.

(** Order of Python tuples of two integers. *)
Definition pair_lt (a b : Z * Z) : bool :=
  (a.1 <? b.1) || ((a.1 =? b.1) && (a.2 <? b.2)).

(** [l[:n]]; a negative [n] counts from the end. *)
Definition slice_to {A} (n : Z) (l : list A) : list A :=
  if 0 <=? n then take (Z.to_nat n) l
  else take (Z.to_nat (Z.of_nat (length l) + n)) l.

(** [len(l)] *)
Definition len {A} (l : list A) : Z := Z.of_nat (length l).

(** [l[i]], where a negative [i] counts from the end; [None] stands for the
    [IndexError] of an index out of range. *)
Definition index {A} (l : list A) (i : Z) : option A :=
  if 0 <=? i then l !! Z.to_nat i
  else if 0 <=? len l + i then l !! Z.to_nat (len l + i)
  else None.

(** ** Effects: the heap, exceptions, [random]

    What a call can touch: the table [self.chain] of the generator, a
    [defaultdict(list)] kept in insertion order as Python dictionaries are,
    and the state of the module [random], the sequence of the raw draws to
    come. *)

Abbreviation bigram := (list N * list N)%type (only parsing).
Abbreviation table := (list (bigram * list str)) (only parsing).

Record world := World {
  chain : table;
  draws : nat → nat;
}.

Inductive exn :=
  | IndexError (msg : string).

Definition empty_choice : exn := IndexError "Cannot choose from an empty sequence".
Definition out_of_range : exn := IndexError "list index out of range".

(** A computation ends with a value or an exception; [OutOfFuel] is the
    loop bound of the model running out before the loop has ended. *)
Inductive outcome (A : Type) :=
  | Ret (a : A)
  | Raise (e : exn)
  | OutOfFuel.
Arguments Ret {A} a.
Arguments Raise {A} e.
Arguments OutOfFuel {A}.

Definition M (A : Type) : Type := world → outcome A * world.

#[export] Instance M_ret : MRet M := λ A a w, (Ret a, w).
#[export] Instance M_bind : MBind M := λ A B f m w,
  match m w with
  | (Ret a, w') => f a w'
  | (Raise e, w') => (Raise e, w')
  | (OutOfFuel, w') => (OutOfFuel, w')
  end.

Definition raise {A} (e : exn) : M A := λ w, (Raise e, w).
Definition out_of_fuel {A} : M A := λ w, (OutOfFuel, w).

(** An indexing that may raise. *)
Definition item {A} (l : list A) (i : Z) : M A :=
  match index l i with
  | Some x => mret x
  | None => raise out_of_range
  end.

(** [random.choice(seq)]: raises on an empty sequence, and otherwise takes
    the element at the next draw, reduced below the length. *)
Definition choice {A} (seq : list A) : M A := λ w,
  match seq with
  | [] => (Raise empty_choice, w)
  | x :: _ =>
      (Ret (nth (draws w O mod length seq) seq x),
       {| chain := chain w; draws := λ k, draws w (S k) |})
  end.

(** *** Dictionary operations on the table *)

Fixpoint dict_get {V} (key : bigram) (d : list (bigram * V)) : option V :=
  match d with
  | [] => None
  | (k, v) :: d' => if decide (k = key) then Some v else dict_get key d'
  end.

Definition dict_keys {V} (d : list (bigram * V)) : list bigram := d.*1.

(** [d[key].append(word)] on a [defaultdict(list)]: a missing key is first
    entered with an empty list, at the end of the dictionary. *)
Fixpoint dict_append (key : bigram) (word : str) (d : table) : table :=
  match d with
  | [] => [(key, [word])]
  | (k, v) :: d' =>
      if decide (k = key) then (k, v ++ [word]) :: d'
      else (k, v) :: dict_append key word d'
  end.

(** [key in self.chain] *)
Definition chain_contains (key : bigram) : M bool := λ w,
  (Ret (bool_decide (is_Some (dict_get key (chain w)))), w).

(** [list(self.chain.keys())] *)
Definition chain_keys : M (list bigram) := λ w, (Ret (dict_keys (chain w)), w).

(** [self.chain.get(key)], which does not enter a missing key *)
Definition chain_get (key : bigram) : M (option (list str)) := λ w,
  (Ret (dict_get key (chain w)), w).

(** [self.chain[key].append(word)] *)
Definition chain_append (key : bigram) (word : str) : M unit := λ w,
  (Ret (), {| chain := dict_append key word (chain w); draws := draws w |}).

(** [for x in l: body(x)] *)
Fixpoint for_each {A} (l : list A) (body : A → M unit) : M unit :=
  match l with
  | [] => mret ()
  | x :: l' => body x ;; for_each l' body
  end.

(** [range(n)] *)
Definition range (n : Z) : list Z := Z.of_nat <$> seq 0 (Z.to_nat n).

(** ** MarkovChainGenerator *)

Module MarkovChainGenerator.

Definition _load_corpus : str :=
  utf8 (
       "Alice was beginning to get very tired of sitting by her sister on the bank, " ++
       "and of having nothing to do: once or twice she had peeped into the book her " ++
       "sister was reading, but it had no pictures or conversations in it, ‘and what " ++
       "is the use of a book,’ thought Alice ‘without pictures or conversation?’ " ++
       "So she was considering in her own mind (as well as she could, for the hot day " ++
       "made her feel very sleepy and stupid), whether the pleasure of making a " ++
       "daisy-chain would be worth the trouble of getting up and picking the daisies, " ++
       "when suddenly a White Rabbit with pink eyes ran close by her. " ++
       "There was nothing so very remarkable in that; nor did Alice think it so " ++
       "very much out of the way to hear the Rabbit say to itself, ‘Oh dear! Oh " ++
       "dear! I shall be late!’ (when she thought it over afterwards, it occurred to " ++
       "her that she ought to have wondered at this, but at the time it all seemed " ++
       "quite natural); but when the Rabbit actually took a watch out of its " ++
       "waistcoat-pocket, and looked at it, and then hurried on, Alice started to her " ++
       "feet, for it flashed across her mind that she had never before seen a rabbit " ++
       "with either a waistcoat-pocket, or a watch to take out of it, and burning with " ++
       "curiosity, she ran across the field after it, and fortunately was just in " ++
       "time to see it pop down a large rabbit-hole under the hedge. " ++
       "In another moment down went Alice after it, never once considering how in the " ++
       "world she was to get out again. The rabbit-hole went straight on like a " ++
       "tunnel for some way, and then dipped suddenly down, so suddenly that Alice had " ++
       "not a moment to think about stopping herself before she found herself falling " ++
       "down a very deep well. Either the well was very deep, or she fell very " ++
       "slowly, for she had plenty of time as she went down to look about her and to " ++
       "wonder what was going to happen next. First, she tried to look down and make " ++
       "out what she was coming to, but it was too dark to see anything; then she " ++
       "looked at the sides of the well, and noticed that they were filled with " ++
       "cupboards and book-shelves; here and there she saw maps and pictures hung " ++
       "upon pegs. She took down a jar from one of the shelves as she passed; it was " ++
       "labelled ‘ORANGE MARMALADE’, but to her great disappointment it was empty: she " ++
       "did not like to drop the jar for fear of killing somebody, so managed to put " ++
       "it into one of the cupboards as she fell past it. ‘Well!’ thought Alice to " ++
       "herself, ‘after such a fall as this, I shall think nothing of tumbling down " ++
       "stairs! How brave they’ll all think me at home! Why, I wouldn’t say anything " ++
       "about it, even if I fell off the top of the house!’ (Which was very likely true.) " ++
       "Down, down, down. Would the fall never come to an end! ‘I wonder how many " ++
       "miles I’ve fallen by this time?’ she said aloud. ‘I must be getting somewhere " ++
       "near the centre of the earth. Let me see: that would be four thousand miles " ++
       "down, I think—’ (for, you see, Alice had learnt several things of this sort in " ++
       "her lessons in the schoolroom, and though this was not a VERY good opportunity " ++
       "for showing off her knowledge, as there was no one to listen to her, still it " ++
       "was good practice to say it over) ‘—yes, that’s about the right distance—but " ++
       "then I wonder what Latitude or Longitude I’ve got to?’ (Alice had no idea what " ++
       "Latitude was, or Longitude either, but thought they were nice grand words to " ++
       "say.) ")%string.

Section Generator.
Context {U : Unicode}.

(** [_build_chain], for the corpus given. *)
Definition _build_chain_from (corpus : str) : M unit :=
  let text := lower corpus in
  let words := findall_words text in
  for_each (range (len words - 2)) (λ i,
    w0 ← item words i;
    w1 ← item words (i + 1);
    w2 ← item words (i + 2);
    chain_append (w0, w1) w2).

Definition _build_chain : M unit := _build_chain_from _load_corpus.

(** [__init__]: the table starts as an empty [defaultdict(list)]. *)
Definition __init__from (corpus : str) : M unit := λ w,
  _build_chain_from corpus {| chain := []; draws := draws w |}.

Definition __init__ : M unit := __init__from _load_corpus.

(** Choice of the starting state. *)
Definition random_start : M (list str) :=
  keys ← chain_keys;
  seed ← choice keys;
  mret [seed.1; seed.2].

Definition start (prompt_words : list str) : M (list str) :=
  if 2 <=? len prompt_words then
    w0 ← item prompt_words (-2);
    w1 ← item prompt_words (-1);
    known ← chain_contains (w0, w1);
    if (known : bool) then mret prompt_words else random_start
  else if len prompt_words =? 1 then
    first ← item prompt_words (-1);
    keys ← chain_keys;
    match filter (λ key, key.1 = first) keys with
    | [] => random_start
    | candidates => seed ← choice candidates; mret [first; seed.2]
    end
  else random_start.

(** One round of the loop body. *)
Definition extend (generated_words : list str) : M (list str) :=
  w0 ← item generated_words (-2);
  w1 ← item generated_words (-1);
  followers ← chain_get (w0, w1);
  match followers with
  | None | Some [] =>
      keys ← chain_keys;
      seed ← choice keys;
      mret (generated_words ++ [seed.1; seed.2])
  | Some followers =>
      next_word ← choice followers;
      mret (generated_words ++ [next_word])
  end.

(** [while len(generated_words) < max_length: ...] *)
Fixpoint while (fuel : nat) (max_length : Z) (generated_words : list str)
  : M (list str) :=
  if len generated_words <? max_length then
    match fuel with
    | O => out_of_fuel
    | S fuel' =>
        generated_words ← extend generated_words;
        while fuel' max_length generated_words
    end
  else mret generated_words.

(** [prompt and prompt[0].isupper()] *)
Definition starts_upper (prompt : str) : bool :=
  match prompt with
  | [] => false
  | c :: _ => isupper c
  end.

(** The last step: [generated_words[0] = generated_words[0].capitalize()]
    under the test above, then the join. *)
Definition finish (prompt : str) (generated_words : list str) : M str :=
  if starts_upper prompt then
    w0 ← item generated_words 0;
    mret (join (lit " ") (<[O := capitalize w0]> generated_words))
  else mret (join (lit " ") generated_words).

(** The words before the last step.  Every round of the loop makes the
    list longer, so [max_length] rounds are enough. *)
Definition generate_words (prompt : str) (max_length : Z) : M (list str) :=
  let prompt_words := findall_words (lower prompt) in
  generated_words ← start prompt_words;
  while (Z.to_nat max_length) max_length generated_words.

Definition generate (prompt : str) (max_length : Z) : M str :=
  generated_words ← generate_words prompt max_length;
  finish prompt generated_words.
End Generator.

End MarkovChainGenerator.

(** ** TextSummarizer *)

Module TextSummarizer.

Definition _default_stopwords : gset str :=
  list_to_set (lit <$>
    ["a"; "about"; "above"; "after"; "again"; "against"; "all"; "am"; "an";
     "and"; "any"; "are"; "as"; "at"; "be"; "because"; "been"; "before";
     "being"; "below"; "between"; "both"; "but"; "by"; "could"; "did"; "do";
     "does"; "doing"; "down"; "during"; "each"; "few"; "for"; "from";
     "further"; "had"; "has"; "have"; "having"; "he"; "her"; "here"; "hers";
     "herself"; "him"; "himself"; "his"; "how"; "i"; "if"; "in"; "into";
     "is"; "it"; "its"; "itself"; "just"; "me"; "more"; "most"; "my";
     "myself"; "no"; "nor"; "not"; "now"; "of"; "off"; "on"; "once"; "only";
     "or"; "other"; "our"; "ours"; "ourselves"; "out"; "over"; "own"; "same";
     "she"; "should"; "so"; "some"; "such"; "than"; "that"; "the"; "their";
     "theirs"; "them"; "themselves"; "then"; "there"; "these"; "they";
     "this"; "those"; "through"; "to"; "too"; "under"; "until"; "up"; "very";
     "was"; "we"; "were"; "what"; "when"; "where"; "which"; "while"; "who";
     "whom"; "why"; "will"; "with"; "you"; "your"; "yours"; "yourself";
     "yourselves"]%string).

Section Summarizer.
Context {U : Unicode}.
(** [self.stopwords] *)
Variable stopwords : gset str.

Definition _tokenize_sentences (text : str) : list str :=
  filter (λ s, s ≠ []) (split_sentences (strip text)).

Definition _tokenize_words (sentence : str) : list str :=
  findall_words (lower sentence).

(** The body of the first loop: [freq[word] += 1] on a [Counter]. *)
Definition count_word (freq : gmap str Z) (word : str) : gmap str Z :=
  if bool_decide (word ∈ stopwords) then freq
  else <[word := default 0 (freq !! word) + 1]> freq.

Definition count_sentence (freq : gmap str Z) (sentence : str) : gmap str Z :=
  foldl count_word freq (_tokenize_words sentence).

(** The body of the second loop: [score += freq.get(word, 0)]. *)
Definition add_score (freq : gmap str Z) (score : Z) (word : str) : Z :=
  if bool_decide (word ∈ stopwords) then score
  else score + default 0 (freq !! word).

Definition score_of (freq : gmap str Z) (sentence : str) : Z :=
  foldl (add_score freq) 0 (_tokenize_words sentence).

(** The first loop, over all the sentences, from an empty [Counter]. *)
Definition word_frequencies (sentences : list str) : gmap str Z :=
  foldl count_sentence ∅ sentences.

(** The second loop: the triples [(score, idx, sentence)]. *)
Definition score_sentences (sentences : list str) : list (Z * Z * str) :=
  let freq := word_frequencies sentences in
  imap (λ idx sentence, (score_of freq sentence, Z.of_nat idx, sentence))
       sentences.

Definition summarize (text : str) (max_sentences : Z) : str :=
  let sentences := _tokenize_sentences text in
  if len sentences <=? max_sentences then text
  else
    let scored_sentences := score_sentences sentences in
    let top :=
      slice_to max_sentences
        (sorted pair_lt (λ x : Z * Z * str, (- x.1.1, x.1.2)) scored_sentences) in
    let top_sorted := sorted Z.ltb (λ x : Z * Z * str, x.1.2) top in
    let summary_sentences := (λ x : Z * Z * str, x.2) <$> top_sorted in
    join (lit " ") summary_sentences.
End Summarizer.

End TextSummarizer.

(** The two objects made when the module is loaded: [text_generator] is the
    table [__init__] leaves behind and [text_summarizer] carries the set of
    stopwords. *)
Definition text_generator : table :=
  Eval vm_compute in
    chain (MarkovChainGenerator.__init__ (U := ascii_tables)
             {| chain := []; draws := λ _, O |}).2.

Definition text_summarizer : gset str := TextSummarizer._default_stopwords.
(** ** The request and response models, [src/models/schemas.py] *)

Module schemas.

Record GenerateRequest := {
  prompt : str;
  max_length : Z;
}.

Record GenerateResponse := {
  generated_text : str;
}.

Record SummarizeRequest := {
  text : str;
  max_sentences : Z;
}.

Record SummarizeResponse := {
  summary : str;
}.

(** The bounds of the fields: [ge=1, le=200] and [ge=1, le=10].  A request
    that breaks them does not reach the routes. *)
Definition valid_generate (payload : GenerateRequest) : bool :=
  (1 <=? max_length payload) && (max_length payload <=? 200).

Definition valid_summarize (payload : SummarizeRequest) : bool :=
  (1 <=? max_sentences payload) && (max_sentences payload <=? 10).

End schemas.

(** ** The routes, [src/api/routes.py] *)

Module routes.
Import schemas MarkovChainGenerator TextSummarizer.

(** How a route ends: with the body of the answer, with an [HTTPException]
    it raises itself, or with an exception of the service that nothing
    catches; [Unfinished] stands for the loop bound of the model. *)
Inductive answer (A : Type) :=
  | Body (body : A)
  | HTTPException (status_code : Z) (detail : string)
  | Uncaught (e : exn)
  | Unfinished.
Arguments Body {A} body.
Arguments HTTPException {A} status_code detail.
Arguments Uncaught {A} e.
Arguments Unfinished {A}.

Section Routes.
Context {U : Unicode}.

(** [text_generator] is the table in the world. *)
Definition generate_text (payload : GenerateRequest)
  : world → answer GenerateResponse * world := λ w,
  match strip (prompt payload) with
  | [] => (HTTPException 400 "Prompt must not be empty.", w)
  | _ =>
      match generate (prompt payload) (max_length payload) w with
      | (Ret generated, w') => (Body {| generated_text := generated |}, w')
      | (Raise e, w') => (Uncaught e, w')
      | (OutOfFuel, w') => (Unfinished, w')
      end
  end.

Definition summarize_text (payload : SummarizeRequest)
  : answer SummarizeResponse :=
  match strip (text payload) with
  | [] => HTTPException 400 "Text must not be empty."
  | _ =>
      Body {| summary := summarize text_summarizer (text payload)
                           (max_sentences payload) |}
  end.
End Routes.

End routes.

(** * Vocabulary of the properties *)

Import MarkovChainGenerator TextSummarizer.

(** ** Worlds and random choices *)

(** A world with the table of the corpus and a random source whose draws
    are all 0. *)
Definition loaded : world := {| chain := text_generator; draws := λ _, O |}.

(** The key the next draw picks. *)
Definition drawn {A} (w : world) (seq : list A) (d : A) : A :=
  nth (draws w O mod length seq) seq d.

Definition advance (w : world) : world :=
  {| chain := chain w; draws := λ k, draws w (S k) |}.

Definition read_only {A} (m : M A) : Prop := ∀ w, chain (m w).2 = chain w.

(** The key [random.choice(list(self.chain.keys()))] picks. *)
Definition random_key (w : world) : option bigram :=
  match dict_keys (chain w) with
  | [] => None
  | k :: ks => Some (drawn w (k :: ks) k)
  end.

(** The ways [start] can end: with the prompt, with a key the random
    source picks, or, for a prompt of one word, with that word and the
    second word of a key that begins with it. *)
Inductive started (w : world) (prompt_words : list str)
  : outcome (list str) * world → Prop :=
  | started_prompt pre a b :
      prompt_words = pre ++ [a; b] →
      is_Some (dict_get (a, b) (chain w)) →
      started w prompt_words (Ret prompt_words, w)
  | started_candidate first seed :
      prompt_words = [first] →
      seed ∈ dict_keys (chain w) →
      seed.1 = first →
      started w prompt_words (Ret [first; seed.2], advance w)
  | started_random seed :
      random_key w = Some seed →
      started w prompt_words (Ret [seed.1; seed.2], advance w)
  | started_empty :
      chain w = [] →
      started w prompt_words (Raise empty_choice, w).

(** ** The table under construction *)

(** All words of a table, in keys and in lists of successors, have the
    property [P]. *)
Definition table_all (P : str → Prop) (d : table) : Prop :=
  Forall (λ kv, P kv.1.1 ∧ P kv.1.2 ∧ Forall P kv.2) d.

Definition nonempty_lists (d : table) : Prop := Forall (λ kv, kv.2 ≠ []) d.

(** One round of the loop of [_build_chain]. *)
Definition build_round (words : list str) (i : Z) : M unit :=
  w0 ← item words i;
  w1 ← item words (i + 1);
  w2 ← item words (i + 2);
  chain_append (w0, w1) w2.

(** The triples of consecutive words of a list, in order: the pair that
    becomes a key and the word that follows it. *)
Fixpoint triples (words : list str) : list (bigram * str) :=
  match words with
  | w0 :: ((w1 :: w2 :: _) as rest) => ((w0, w1), w2) :: triples rest
  | _ => []
  end.

(** The words seen after a pair, in the order of the text and as often as
    they were seen. *)
Definition observed (key : bigram) (words : list str) : list str :=
  (filter (λ t, t.1 = key) (triples words)).*2.

(** The table after the entries of a list of triples. *)
Definition record_all (d : table) (ts : list (bigram * str)) : table :=
  foldl (λ d t, dict_append t.1 t.2 d) d ts.

(** The number of successors a table holds, over all its keys. *)
Definition transitions (d : table) : nat := sum_list_with (λ kv, length kv.2) d.

(** A table without dead ends: every key has a successor, and the second
    word of a key with any of its successors is a key again. *)
Definition closed (d : table) : Prop :=
  Forall (λ kv, kv.2 ≠ [] ∧
                Forall (λ f, is_Some (dict_get (kv.1.2, f) d)) kv.2) d.

(** The word lists the loop of [generate] can make of a list [opening]: a
    round appends a successor of the last two words, or the two words of
    a key when these have no successor. *)
Inductive grown (d : table) (opening : list str) : list str → Prop :=
  | grown_opening : grown d opening opening
  | grown_follow pre a b followers next :
      grown d opening (pre ++ [a; b]) →
      dict_get (a, b) d = Some followers →
      next ∈ followers →
      grown d opening ((pre ++ [a; b]) ++ [next])
  | grown_restart pre a b (seed : bigram) :
      grown d opening (pre ++ [a; b]) →
      dict_get (a, b) d = None ∨ dict_get (a, b) d = Some [] →
      seed ∈ dict_keys d →
      grown d opening ((pre ++ [a; b]) ++ [seed.1; seed.2]).

(** ** Pieces of a text *)

(** The pieces of a text put together again, with a separator between each
    two. *)
Fixpoint interleave (pieces seps : list str) : str :=
  match pieces, seps with
  | p :: ps, sep :: seps' => p ++ sep ++ interleave ps seps'
  | p :: _, [] => p
  | [], _ => []
  end.

(** The string ends with one of [.!?]. *)
Definition terminated (s : str) : Prop :=
  from_option is_terminator false (last s) = true.

(** All elements of a list but the last have the property [Q]. *)
Fixpoint all_but_last {A} (Q : A → Prop) (l : list A) : Prop :=
  match l with
  | x :: ((_ :: _) as l') => Q x ∧ all_but_last Q l'
  | _ => True
  end.

(** The length of the join of a list with a separator of one character,
    and one more. *)
Definition joined_length (l : list str) : nat :=
  sum_list_with (λ p, S (length p)) l.

(** The number of elements [l[:n]] has for a list of [k] elements. *)
Definition slice_length (n : Z) (k : nat) : nat :=
  if 0 <=? n then Nat.min (Z.to_nat n) k
  else Z.to_nat (Z.of_nat k + n).

(** ** Orders and counts *)

(** [x] may stand before [y] in a list sorted by [key]. *)
Definition key_le {A K} (lt : K → K → bool) (key : A → K) (x y : A) : Prop :=
  lt (key y) (key x) = false.

Definition occurrences (word : str) (ws : list str) : Z :=
  len (filter (λ w, w = word) ws).

Definition sum_Z (l : list Z) : Z := foldr Z.add 0 l.

Section Vocabulary.
Context {U : Unicode}.

(** The word list with the first word capitalised when the prompt begins
    with an upper-case character. *)
Definition capitalized (prompt : str) (ws : list str) : list str :=
  match ws with
  | first :: rest =>
      if starts_upper prompt then capitalize first :: rest else ws
  | [] => []
  end.

(** A run of calls of [generate], each from the world the one before
    leaves. *)
Definition after_calls (w : world) (calls : list (str * Z)) : world :=
  foldl (λ w call, (generate call.1 call.2 w).2) w calls.

(** A sentence boundary: one of [.!?] with a whitespace character right
    after it. *)
Fixpoint has_boundary (s : str) : bool :=
  match s with
  | a :: (b :: _) as s' => (is_terminator a && isspace b) || has_boundary s'
  | _ => false
  end.

(** The number of sentence boundaries of a string. *)
Fixpoint boundaries (s : str) : nat :=
  match s with
  | a :: (b :: _) as s' =>
      (if is_terminator a && isspace b then 1 else 0) + boundaries s'
  | _ => O
  end.

(** The number of sentences, in the words of the specification: the text
    without the whitespace around it is cut at every boundary, and an empty
    text has no sentence. *)
Definition sentence_count (text : str) : Z :=
  match strip text with
  | [] => 0
  | s => 1 + Z.of_nat (boundaries s)
  end.

(** The number of words of a string: [len(s.split(" "))]. *)
Definition word_count (s : str) : Z := len (split_on 32 s).

(** What the development needs to know of the character tables: [.], [!]
    and [?] are no whitespace, the space is no word character, and a change
    of case brings no space in. *)
Class UnicodeFacts : Prop := {
  isspace_terminator : ∀ c, is_terminator c = true → isspace c = false;
  isalnum_space : isalnum 32 = false;
  lower_space : ∀ s, 32%N ∉ s → 32%N ∉ lower s;
  upper_space : ∀ c, c ≠ 32%N → 32%N ∉ upper c;
}.

(** A word as the reader of a text sees it: not empty, and without
    whitespace in it. *)
Definition wordlike (word : str) : Prop :=
  word ≠ [] ∧ Forall (λ c, isspace c = false) word.

(** What the count of the words of a generated text needs to know of the
    character tables: the space is whitespace, a word character is not, and
    a change of case neither brings whitespace in nor leaves nothing. *)
Class WordFacts : Prop := {
  isspace_space : isspace 32 = true;
  isspace_word : ∀ c, is_word c = true → isspace c = false;
  lower_no_space :
    ∀ s, Forall (λ c, isspace c = false) s →
         Forall (λ c, isspace c = false) (lower s);
  upper_no_space :
    ∀ c, isspace c = false → Forall (λ c, isspace c = false) (upper c);
  upper_nonempty : ∀ c, upper c ≠ [];
}.

Variable stopwords : gset str.

(** The words of a sentence that count: its tokens, lower case, that
    are no stopwords, with repetitions. *)
Definition content_words (sentence : str) : list str :=
  filter (λ word, word ∉ stopwords) (_tokenize_words sentence).

(** How often a word occurs among the content words of all sentences. *)
Definition global_frequency (sentences : list str) (word : str) : Z :=
  occurrences word (sentences ≫= content_words).

(** The score of a sentence: the global frequencies of its content
    words, one summand for every occurrence. *)
Definition sentence_score (sentences : list str) (sentence : str) : Z :=
  sum_Z (global_frequency sentences <$> content_words sentence).

End Vocabulary.

(** * Properties *)

(** ** Running a computation *)

Lemma bind_ret {A B} (m : M A) (f : A → M B) w a w' :
  m w = (Ret a, w') → (m ≫= f) w = f a w'.
Proof. intros H. unfold mbind, M_bind. by rewrite H. Qed.

Lemma bind_raise {A B} (m : M A) (f : A → M B) w e w' :
  m w = (Raise e, w') → (m ≫= f) w = (Raise e, w').
Proof. intros H. unfold mbind, M_bind. by rewrite H. Qed.

Lemma len_app {A} (l k : list A) : len (l ++ k) = len l + len k.
Proof. unfold len. rewrite length_app. lia. Qed.

Lemma len_nonneg {A} (l : list A) : 0 ≤ len l.
Proof. unfold len. lia. Qed.

(** The last two elements of a list that has them. *)
Lemma last_two_split {A} (l : list A) :
  2 ≤ len l → ∃ pre a b, l = pre ++ [a; b].
Proof.
  unfold len. intros Hl.
  destruct (rev l) as [|b [|a r]] eqn:Hr;
    try (apply (f_equal length) in Hr; rewrite length_rev in Hr; simpl in Hr; lia).
  exists (rev r), a, b.
  rewrite <- (rev_involutive l), Hr. simpl. by rewrite <- app_assoc.
Qed.

Lemma index_last {A} (pre : list A) a b : index (pre ++ [a; b]) (-1) = Some b.
Proof.
  unfold index. rewrite len_app. pose proof (len_nonneg pre) as Hp.
  change (len [a; b]) with 2.
  destruct (0 <=? -1) eqn:E; [lia|]. clear E.
  destruct (0 <=? len pre + 2 + -1) eqn:E; [|lia].
  replace (Z.to_nat (len pre + 2 + -1)) with (length pre + 1)%nat by (unfold len; lia).
  rewrite lookup_app_r by lia.
  by replace (length pre + 1 - length pre)%nat with 1%nat by lia.
Qed.

Lemma index_last_but_one {A} (pre : list A) a b :
  index (pre ++ [a; b]) (-2) = Some a.
Proof.
  unfold index. rewrite len_app. pose proof (len_nonneg pre) as Hp.
  change (len [a; b]) with 2.
  destruct (0 <=? -2) eqn:E; [lia|]. clear E.
  destruct (0 <=? len pre + 2 + -2) eqn:E; [|lia].
  replace (Z.to_nat (len pre + 2 + -2)) with (length pre + 0)%nat by (unfold len; lia).
  rewrite lookup_app_r by lia.
  by replace (length pre + 0 - length pre)%nat with 0%nat by lia.
Qed.

Lemma item_last {A} (pre : list A) a b w :
  item (pre ++ [a; b]) (-1) w = (Ret b, w).
Proof. unfold item. by rewrite index_last. Qed.

Lemma item_last_but_one {A} (pre : list A) a b w :
  item (pre ++ [a; b]) (-2) w = (Ret a, w).
Proof. unfold item. by rewrite index_last_but_one. Qed.

Lemma item_single {A} (a : A) w : item [a] (-1) w = (Ret a, w).
Proof. reflexivity. Qed.

(** ** Dictionaries *)

Lemma dict_get_keys {V} key (d : list (bigram * V)) :
  is_Some (dict_get key d) ↔ key ∈ dict_keys d.
Proof.
  unfold dict_keys. induction d as [|[k v] d IH]; simpl.
  - split; [by intros [? ?]|by intros ?%elem_of_nil].
  - destruct (decide (k = key)) as [->|Hne].
    + split; [intros _; left|by eexists].
    + rewrite IH. split; [by right|].
      intros [?|?]%elem_of_cons; [congruence|done].
Qed.

Lemma dict_get_elem {V} key (v : V) (d : list (bigram * V)) :
  dict_get key d = Some v → (key, v) ∈ d.
Proof.
  induction d as [|[k v'] d IH]; simpl; [done|].
  destruct (decide (k = key)) as [->|Hne].
  - intros [= ->]. left.
  - intros H. right. auto.
Qed.

(** ** What [random.choice] returns *)

Lemma choice_cons {A} (x : A) (seq : list A) w :
  choice (x :: seq) w = (Ret (drawn w (x :: seq) x), advance w).
Proof. reflexivity. Qed.

(** ** Computations that only read the table *)

Create HintDb read_only discriminated.

Lemma read_only_ret {A} (a : A) : read_only (mret a).
Proof. by intros w. Qed.

Lemma read_only_raise {A} e : read_only (@raise A e).
Proof. by intros w. Qed.

Lemma read_only_out_of_fuel {A} : read_only (@out_of_fuel A).
Proof. by intros w. Qed.

Lemma read_only_bind {A B} (m : M A) (f : A → M B) :
  read_only m → (∀ a, read_only (f a)) → read_only (m ≫= f).
Proof.
  intros Hm Hf w. unfold mbind, M_bind. specialize (Hm w).
  destruct (m w) as [[a| |] w']; simpl in *; [|done..].
  by rewrite Hf.
Qed.

Lemma read_only_item {A} (l : list A) i : read_only (item l i).
Proof. unfold item. destruct (index l i); by intros w. Qed.

Lemma read_only_choice {A} (seq : list A) : read_only (choice seq).
Proof. intros w. by destruct seq. Qed.

Lemma read_only_chain_contains key : read_only (chain_contains key).
Proof. by intros w. Qed.

Lemma read_only_chain_keys : read_only chain_keys.
Proof. by intros w. Qed.

Lemma read_only_chain_get key : read_only (chain_get key).
Proof. by intros w. Qed.

#[export] Hint Resolve read_only_ret read_only_raise read_only_out_of_fuel
  read_only_item read_only_choice read_only_chain_contains
  read_only_chain_keys read_only_chain_get : read_only.

Ltac read_only :=
  repeat first
    [ progress eauto with read_only
    | apply read_only_bind; [|intros ?]
    | match goal with
      | |- read_only (if ?b then _ else _) => destruct b
      | |- read_only (match ?x with _ => _ end) => destruct x
      end ].

Section GeneratorFacts.
Context {U : Unicode}.

Lemma read_only_random_start : read_only random_start.
Proof. unfold random_start. read_only. Qed.

Lemma read_only_start prompt_words : read_only (start prompt_words).
Proof. pose proof read_only_random_start. unfold start. read_only. Qed.

Lemma read_only_extend ws : read_only (extend ws).
Proof. unfold extend. read_only. Qed.

Lemma read_only_while fuel max_length ws :
  read_only (while fuel max_length ws).
Proof.
  revert ws. induction fuel as [|fuel IH]; intros ws; simpl;
    destruct (len ws <? max_length); auto with read_only.
  apply read_only_bind; auto using read_only_extend.
Qed.

Lemma read_only_finish prompt ws : read_only (finish prompt ws).
Proof. unfold finish. read_only. Qed.

Lemma read_only_generate prompt max_length :
  read_only (generate prompt max_length).
Proof.
  unfold generate, generate_words.
  repeat (apply read_only_bind; [|intros ?]);
    auto using read_only_start, read_only_while, read_only_finish.
Qed.

(** *** The starting state *)

Lemma random_key_elem w seed :
  random_key w = Some seed → seed ∈ dict_keys (chain w).
Proof.
  unfold random_key. destruct (dict_keys (chain w)) as [|k ks]; [done|].
  intros [= <-]. apply list_elem_of_In, nth_In, Nat.mod_upper_bound. done.
Qed.

Lemma random_start_run w :
  random_start w =
    match random_key w with
    | Some seed => (Ret [seed.1; seed.2], advance w)
    | None => (Raise empty_choice, w)
    end.
Proof.
  unfold random_start, random_key, mbind, M_bind, chain_keys.
  by destruct (dict_keys (chain w)).
Qed.

Lemma start_known pre a b w :
  is_Some (dict_get (a, b) (chain w)) →
  start (pre ++ [a; b]) w = (Ret (pre ++ [a; b]), w).
Proof.
  intros Hk. unfold start.
  assert ((2 <=? len (pre ++ [a; b])) = true) as ->.
  { rewrite len_app. pose proof (len_nonneg pre). change (len [a; b]) with 2. lia. }
  rewrite (bind_ret _ _ _ _ _ (item_last_but_one pre a b w)).
  rewrite (bind_ret _ _ _ _ _ (item_last pre a b w)).
  unfold mbind, M_bind, chain_contains. by rewrite bool_decide_eq_true_2.
Qed.

Lemma start_unknown pre a b w :
  dict_get (a, b) (chain w) = None →
  start (pre ++ [a; b]) w = random_start w.
Proof.
  intros Hk. unfold start.
  assert ((2 <=? len (pre ++ [a; b])) = true) as ->.
  { rewrite len_app. pose proof (len_nonneg pre). change (len [a; b]) with 2. lia. }
  rewrite (bind_ret _ _ _ _ _ (item_last_but_one pre a b w)).
  rewrite (bind_ret _ _ _ _ _ (item_last pre a b w)).
  unfold mbind at 1, M_bind at 1, chain_contains.
  rewrite bool_decide_eq_false_2; [done|]. rewrite Hk. by intros [? ?].
Qed.

Lemma random_start_started w prompt_words :
  started w prompt_words (random_start w).
Proof.
  rewrite random_start_run. destruct (random_key w) as [seed|] eqn:Hk.
  - by apply started_random.
  - apply started_empty. unfold random_key, dict_keys in Hk.
    by destruct (chain w).
Qed.

Lemma start_started w prompt_words :
  started w prompt_words (start prompt_words w).
Proof.
  destruct (decide (2 ≤ len prompt_words)) as [H2|H2].
  - destruct (last_two_split prompt_words H2) as (pre & a & b & ->).
    destruct (dict_get (a, b) (chain w)) as [v|] eqn:Hk.
    + rewrite start_known by (by rewrite Hk). by eapply started_prompt; [|rewrite Hk].
    + rewrite start_unknown by done. apply random_start_started.
  - unfold start. destruct (2 <=? len prompt_words) eqn:E; [lia|]. clear E.
    destruct prompt_words as [|first [|? ?]]; simpl;
      [apply random_start_started| |unfold len in H2; simpl in H2; lia].
    rewrite (bind_ret _ _ _ _ _ (item_single first w)).
    unfold mbind at 1, M_bind at 1, chain_keys.
    destruct (filter _ _) as [|c cs] eqn:Hf; [apply random_start_started|].
    unfold mbind, M_bind. rewrite choice_cons.
    assert (drawn w (c :: cs) c ∈ filter (λ key : bigram, key.1 = first)
              (dict_keys (chain w))) as [H1 H3]%list_elem_of_filter.
    { rewrite Hf. apply list_elem_of_In, nth_In, Nat.mod_upper_bound. done. }
    by apply started_candidate.
Qed.

Lemma started_chain w prompt_words r :
  started w prompt_words r → chain r.2 = chain w.
Proof. by destruct 1. Qed.

Lemma started_nonempty w prompt_words r :
  started w prompt_words r → chain w ≠ [] →
  ∃ ws, r.1 = Ret ws ∧ 2 ≤ len ws.
Proof.
  destruct 1 as [pre a b -> _|first seed -> _ _|seed _|He]; intros Hne;
    [| | |done]; eexists; (split; [done|]).
  - rewrite len_app. pose proof (len_nonneg pre). change (len [a; b]) with 2. lia.
  - done.
  - done.
Qed.

(** *** The loop *)

Lemma extend_run ws w :
  2 ≤ len ws → chain w ≠ [] →
  ∃ more, extend ws w = (Ret (ws ++ more), advance w) ∧ 1 ≤ len more ≤ 2.
Proof.
  intros (pre & a & b & ->)%last_two_split Hne. unfold extend.
  rewrite (bind_ret _ _ _ _ _ (item_last_but_one pre a b w)).
  rewrite (bind_ret _ _ _ _ _ (item_last pre a b w)).
  unfold mbind at 1, M_bind at 1, chain_get.
  assert (∃ seed, (keys ← chain_keys; seed ← choice keys;
                   mret ((pre ++ [a; b]) ++ [seed.1; seed.2])) w
                  = (Ret ((pre ++ [a; b]) ++ [seed.1; seed.2]), advance w))
    as [seed Hdead].
  { unfold mbind, M_bind, chain_keys, dict_keys.
    destruct (chain w) as [|kv d] eqn:Hc; [done|]. simpl. by eexists. }
  destruct (dict_get (a, b) (chain w)) as [[|f fs]|].
  - eexists. split; [exact Hdead|]. done.
  - unfold mbind, M_bind. rewrite choice_cons. eexists. split; [done|]. done.
  - eexists. split; [exact Hdead|]. done.
Qed.

Lemma while_run fuel max_length ws w :
  2 ≤ len ws → chain w ≠ [] → max_length - len ws ≤ Z.of_nat fuel →
  ∃ more w',
    while fuel max_length ws w = (Ret (ws ++ more), w') ∧
    chain w' = chain w ∧
    max_length ≤ len (ws ++ more) ≤ Z.max (len ws) (max_length + 1).
Proof.
  revert ws w. induction fuel as [|fuel IH]; intros ws w Hl Hne Hf; simpl.
  - destruct (len ws <? max_length) eqn:E; [lia|].
    exists [], w. rewrite app_nil_r. repeat split; [lia..].
  - destruct (len ws <? max_length) eqn:E.
    + destruct (extend_run ws w Hl Hne) as (more & Hrun & Hm).
      rewrite (bind_ret _ _ _ _ _ Hrun).
      destruct (IH (ws ++ more) (advance w)) as (more' & w' & Hw & Hc & Hb);
        [rewrite len_app; lia|done|rewrite len_app; lia|].
      exists (more ++ more'), w'. rewrite app_assoc.
      split; [done|]. split; [done|].
      apply Z.ltb_lt in E. rewrite !len_app in *. lia.
    + exists [], w. rewrite app_nil_r. repeat split; [lia..].
Qed.

(** *** The last step *)

Lemma len_capitalized prompt ws : len (capitalized prompt ws) = len ws.
Proof. destruct ws; simpl; [done|]. by destruct (starts_upper prompt). Qed.

Lemma finish_run prompt ws w :
  ws ≠ [] → finish prompt ws w = (Ret (join (lit " ") (capitalized prompt ws)), w).
Proof.
  destruct ws as [|first rest]; [done|]. intros _.
  unfold finish, capitalized. by destruct (starts_upper prompt).
Qed.

(** *** The whole call *)

Lemma start_empty prompt_words w :
  chain w = [] → start prompt_words w = (Raise empty_choice, w).
Proof.
  intros He.
  destruct (start_started w prompt_words)
    as [pre a b _ [v Hk]|first seed _ Hs _|seed Hs|_].
  - by rewrite He in Hk.
  - unfold dict_keys in Hs. rewrite He in Hs. by apply elem_of_nil in Hs.
  - apply random_key_elem in Hs. unfold dict_keys in Hs. rewrite He in Hs.
    by apply elem_of_nil in Hs.
  - done.
Qed.

Lemma generate_words_run prompt max_length w :
  chain w ≠ [] →
  ∃ ws more w',
    start (findall_words (lower prompt)) w = (Ret ws, (start (findall_words (lower prompt)) w).2) ∧
    generate_words prompt max_length w = (Ret (ws ++ more), w') ∧
    2 ≤ len ws ∧
    max_length ≤ len (ws ++ more) ≤ Z.max (len ws) (max_length + 1).
Proof.
  intros Hne. unfold generate_words.
  set (pw := findall_words (lower prompt)).
  pose proof (start_started w pw) as Hs.
  destruct (started_nonempty _ _ _ Hs Hne) as (ws & Hr & Hl).
  pose proof (started_chain _ _ _ Hs) as Hc.
  destruct (start pw w) as [o w1] eqn:Hst. simpl in *. subst o.
  destruct (while_run (Z.to_nat max_length) max_length ws w1)
    as (more & w' & Hw & _ & Hb); [done|by rewrite Hc|lia|].
  exists ws, more, w'. rewrite (bind_ret _ _ _ _ _ Hst). done.
Qed.

Lemma generate_run prompt max_length w ws w' :
  generate_words prompt max_length w = (Ret ws, w') → ws ≠ [] →
  generate prompt max_length w =
    (Ret (join (lit " ") (capitalized prompt ws)), w').
Proof.
  intros Hg Hne. unfold generate. rewrite (bind_ret _ _ _ _ _ Hg).
  by apply finish_run.
Qed.
End GeneratorFacts.

(** ** Construction of the table *)

Section Construction.
Context {U : Unicode}.

Lemma dict_append_nonempty key word d :
  nonempty_lists d → nonempty_lists (dict_append key word d).
Proof.
  unfold nonempty_lists. induction 1 as [|[k v] d Hv Hd IH]; simpl.
  - by repeat constructor.
  - destruct (decide (k = key)); constructor; simpl; auto.
    by destruct v.
Qed.

Lemma dict_append_keys key word d :
  dict_keys (dict_append key word d) =
    if bool_decide (key ∈ dict_keys d) then dict_keys d
    else dict_keys d ++ [key].
Proof.
  unfold dict_keys. induction d as [|[k v] d IH]; [done|].
  cbn [dict_append].
  destruct (decide (k = key)) as [->|Hne]; rewrite !fmap_cons; cbn [fst].
  - rewrite bool_decide_eq_true_2 by left. done.
  - rewrite IH. destruct (bool_decide (key ∈ d.*1)) eqn:E.
    + apply bool_decide_eq_true in E.
      rewrite bool_decide_eq_true_2 by (by right). done.
    + apply bool_decide_eq_false in E.
      rewrite bool_decide_eq_false_2; [done|].
      intros [?|?]%elem_of_cons; [congruence|done].
Qed.

Lemma dict_append_NoDup key word d :
  NoDup (dict_keys d) → NoDup (dict_keys (dict_append key word d)).
Proof.
  intros Hd. rewrite dict_append_keys.
  destruct (bool_decide (key ∈ dict_keys d)) eqn:E; [done|].
  apply bool_decide_eq_false in E.
  apply NoDup_app. split; [done|]. split; [|apply NoDup_singleton].
  intros x Hx ->%list_elem_of_singleton. done.
Qed.

(** A loop keeps what each round keeps. *)
Lemma for_each_invariant {A} (P : world → Prop) (l : list A) body w :
  (∀ x w, P w → P (body x w).2) → P w → P (for_each l body w).2.
Proof.
  intros Hbody. revert w. induction l as [|x l IH]; intros w Hw; simpl; [done|].
  unfold mbind, M_bind. specialize (Hbody x w Hw).
  destruct (body x w) as [[[]| |] w1]; simpl in *; auto.
Qed.

Lemma for_each_returns {A} (l : list A) body w :
  (∀ x w, x ∈ l → (body x w).1 = Ret ()) → (for_each l body w).1 = Ret ().
Proof.
  revert w. induction l as [|x l IH]; intros w Hbody; simpl; [done|].
  unfold mbind, M_bind. pose proof (Hbody x w ltac:(left)) as Hx.
  destruct (body x w) as [o w1]; simpl in *; subst o.
  apply IH. intros y w2 Hy. apply Hbody. by right.
Qed.

Lemma index_in_range {A} (l : list A) i :
  0 ≤ i < len l → is_Some (index l i).
Proof.
  intros Hi. unfold index. destruct (0 <=? i) eqn:E; [|lia].
  apply lookup_lt_is_Some. unfold len in Hi. lia.
Qed.

Lemma elem_of_range i n : i ∈ range n ↔ 0 ≤ i < n.
Proof.
  unfold range. rewrite list_elem_of_fmap. split.
  - intros (k & -> & Hk%elem_of_seq). lia.
  - intros Hi. exists (Z.to_nat i). split; [lia|]. apply elem_of_seq. lia.
Qed.

Lemma build_round_run words i w :
  0 ≤ i < len words - 2 →
  ∃ key word,
    build_round words i w =
      (Ret (), {| chain := dict_append key word (chain w); draws := draws w |}).
Proof.
  intros Hi. unfold build_round, item.
  destruct (index_in_range words i) as [a ->]; [lia|].
  destruct (index_in_range words (i + 1)) as [b ->]; [lia|].
  destruct (index_in_range words (i + 2)) as [c ->]; [lia|].
  by exists (a, b), c.
Qed.

Lemma build_round_keeps (P : table → Prop) words i w :
  (∀ key word d, P d → P (dict_append key word d)) →
  P (chain w) → P (chain (build_round words i w).2).
Proof.
  intros HP Hw. unfold build_round, item, mbind, M_bind, mret, M_ret, raise.
  destruct (index words i); [|done].
  destruct (index words (i + 1)); [|done].
  destruct (index words (i + 2)); [|done].
  simpl. auto.
Qed.

Lemma build_chain_keeps (P : table → Prop) corpus w :
  (∀ key word d, P d → P (dict_append key word d)) →
  P (chain w) → P (chain (_build_chain_from corpus w).2).
Proof.
  intros HP Hw. unfold _build_chain_from.
  apply (for_each_invariant (λ w, P (chain w))); [|done].
  intros i w1. by apply (build_round_keeps P).
Qed.

Lemma build_chain_returns corpus w : (_build_chain_from corpus w).1 = Ret ().
Proof.
  unfold _build_chain_from. apply for_each_returns.
  intros i w1 Hi%elem_of_range.
  destruct (build_round_run (findall_words (lower corpus)) i w1 Hi)
    as (key & word & Hrun).
  unfold build_round in Hrun. by rewrite Hrun.
Qed.

(** The table is a dictionary: no key is entered twice. *)
Lemma init_NoDup corpus w : NoDup (dict_keys (chain (__init__from corpus w).2)).
Proof.
  unfold __init__from.
  apply (build_chain_keeps (λ d, NoDup (dict_keys d))).
  - intros. by apply dict_append_NoDup.
  - constructor.
Qed.

Lemma init_nonempty_lists corpus w :
  nonempty_lists (chain (__init__from corpus w).2).
Proof.
  unfold __init__from. apply (build_chain_keeps nonempty_lists).
  - intros. by apply dict_append_nonempty.
  - constructor.
Qed.

(** C8: once [__init__] has built the table, every key has a list of
    successors that is not empty, and no call of [generate] changes the
    table, however many are made. *)
Theorem C8_table_nonempty_lists_and_read_only :
  ∀ (corpus : str) (w0 : world),
    let w := (__init__from corpus w0).2 in
    (__init__from corpus w0).1 = Ret () ∧
    (∀ key, key ∈ dict_keys (chain w) →
       ∃ followers, dict_get key (chain w) = Some followers ∧ followers ≠ []) ∧
    (∀ calls, chain (after_calls w calls) = chain w).
Proof.
  intros corpus w0 w. split; [apply build_chain_returns|]. split.
  - intros key [followers Hget]%dict_get_keys. exists followers.
    split; [done|].
    pose proof (init_nonempty_lists corpus w0) as Hall.
    unfold nonempty_lists in Hall. rewrite Forall_forall in Hall.
    apply (Hall (key, followers)), dict_get_elem, Hget.
  - intros calls. generalize w. clear.
    induction calls as [|[prompt max_length] calls IH]; intros w; simpl; [done|].
    rewrite IH. apply read_only_generate.
Qed.
End Construction.

(** ** Where the generated words come from *)

Lemma bind_inv {A B} (m : M A) (f : A → M B) w b w'' :
  (m ≫= f) w = (Ret b, w'') →
  ∃ a w', m w = (Ret a, w') ∧ f a w' = (Ret b, w'').
Proof.
  unfold mbind, M_bind. destruct (m w) as [[a| |] w']; [|done..].
  by exists a, w'.
Qed.

Lemma index_elem {A} (l : list A) i x : index l i = Some x → x ∈ l.
Proof.
  unfold index. destruct (0 <=? i); [apply list_elem_of_lookup_2|].
  destruct (0 <=? len l + i); [apply list_elem_of_lookup_2|done].
Qed.

Lemma item_inv {A} (l : list A) i w x w' :
  item l i w = (Ret x, w') → x ∈ l ∧ w' = w.
Proof.
  unfold item. destruct (index l i) as [y|] eqn:Hy; [|done].
  intros [= <- <-]. split; [by eapply index_elem|done].
Qed.

Lemma choice_inv {A} (seq : list A) w x w' :
  choice seq w = (Ret x, w') → x ∈ seq ∧ w' = advance w.
Proof.
  destruct seq as [|y seq]; [done|]. rewrite choice_cons. intros [= <- <-].
  split; [|done]. apply list_elem_of_In, nth_In, Nat.mod_upper_bound. done.
Qed.

Section Provenance.
Context {U : Unicode}.
Variable P : str → Prop.

Lemma table_all_key d key :
  table_all P d → key ∈ dict_keys d → P key.1 ∧ P key.2.
Proof.
  unfold table_all, dict_keys. rewrite Forall_forall.
  intros Hd ([k v] & -> & Hin)%list_elem_of_fmap.
  destruct (Hd _ Hin) as (? & ? & _). done.
Qed.

Lemma table_all_get d key v :
  table_all P d → dict_get key d = Some v → Forall P v.
Proof.
  unfold table_all. rewrite Forall_forall. intros Hd Hin%dict_get_elem.
  by destruct (Hd _ Hin) as (_ & _ & ?).
Qed.

Lemma start_keeps prompt_words w ws w' :
  table_all P (chain w) → Forall P prompt_words →
  start prompt_words w = (Ret ws, w') → Forall P ws.
Proof.
  intros Hd Hp Hst. pose proof (start_started w prompt_words) as Hs.
  rewrite Hst in Hs. inversion Hs as [pre a b| first seed Hpw Hin| seed Hk|]; subst.
  - done.
  - apply Forall_cons in Hp as [Hf _].
    destruct (table_all_key _ _ Hd Hin). by repeat constructor.
  - apply random_key_elem in Hk.
    destruct (table_all_key _ _ Hd Hk). by repeat constructor.
Qed.

Lemma extend_keeps ws w ws' w' :
  table_all P (chain w) → Forall P ws →
  extend ws w = (Ret ws', w') → Forall P ws'.
Proof.
  intros Hd Hws. unfold extend.
  intros (a & w1 & [_ ->]%item_inv & H1)%bind_inv.
  apply bind_inv in H1 as (b & w2 & [_ ->]%item_inv & H2).
  apply bind_inv in H2 as (followers & w3 & Hget & H3).
  unfold chain_get in Hget. injection Hget as <- <-.
  assert (∀ r, (keys ← chain_keys; seed ← choice keys;
                mret (ws ++ [seed.1; seed.2])) w = (Ret r, w') →
               Forall P r) as Hdead.
  { intros r (keys & w4 & Hk & H4)%bind_inv.
    unfold chain_keys in Hk. injection Hk as <- <-.
    apply bind_inv in H4 as (seed & w5 & [Hin _]%choice_inv & H5).
    injection H5 as <- _. destruct (table_all_key _ _ Hd Hin).
    apply Forall_app. split; [done|]. by repeat constructor. }
  destruct (dict_get (a, b) (chain w)) as [[|f fs]|] eqn:Hg; [by apply Hdead| |by apply Hdead].
  apply bind_inv in H3 as (next_word & w4 & [Hin _]%choice_inv & H4).
  injection H4 as <- _. apply Forall_app. split; [done|].
  pose proof (table_all_get _ _ _ Hd Hg) as Hf. rewrite Forall_forall in Hf.
  repeat constructor. by apply Hf.
Qed.

Lemma while_keeps fuel max_length ws w ws' w' :
  table_all P (chain w) → Forall P ws →
  while fuel max_length ws w = (Ret ws', w') → Forall P ws'.
Proof.
  revert ws w. induction fuel as [|fuel IH]; intros ws w Hd Hws; simpl;
    destruct (len ws <? max_length); try done; try (by intros [= <- <-]).
  intros (ws1 & w1 & Hext & Hrest)%bind_inv.
  apply (IH ws1 w1); [|by eapply extend_keeps|done].
  pose proof (read_only_extend ws w) as Hro. rewrite Hext in Hro.
  simpl in Hro. by rewrite Hro.
Qed.

(** Every word of the list [generate] builds is a token of the prompt or a
    word of the table. *)
Lemma generate_words_keeps prompt max_length w ws w' :
  table_all P (chain w) → Forall P (findall_words (lower prompt)) →
  generate_words prompt max_length w = (Ret ws, w') → Forall P ws.
Proof.
  intros Hd Hp. unfold generate_words.
  intros (ws0 & w0 & Hst & Hwh)%bind_inv.
  eapply (while_keeps _ _ ws0 w0); [|by eapply start_keeps|exact Hwh].
  pose proof (read_only_start (findall_words (lower prompt)) w) as Hro.
  rewrite Hst in Hro. simpl in Hro. by rewrite Hro.
Qed.

Lemma dict_append_all key word d :
  P key.1 → P key.2 → P word → table_all P d →
  table_all P (dict_append key word d).
Proof.
  intros Hk1 Hk2 Hw. unfold table_all.
  induction 1 as [|[k v] d (H1 & H2 & Hv) Hd IH]; simpl.
  - by repeat constructor.
  - destruct (decide (k = key)); constructor; simpl; auto.
    repeat split; [done..|]. apply Forall_app. by repeat constructor.
Qed.

Lemma init_table_all corpus w :
  Forall P (findall_words (lower corpus)) →
  table_all P (chain (__init__from corpus w).2).
Proof.
  intros Hwords. unfold __init__from, _build_chain_from.
  apply (for_each_invariant (λ w, table_all P (chain w))); [|constructor].
  intros i w1 Hd. unfold mbind, M_bind, item.
  rewrite Forall_forall in Hwords.
  destruct (index _ i) as [a|] eqn:Ha; [|done].
  destruct (index _ (i + 1)) as [b|] eqn:Hb; [|done].
  destruct (index _ (i + 2)) as [c|] eqn:Hc; [|done].
  apply index_elem in Ha, Hb, Hc. simpl. apply dict_append_all; auto.
Qed.
End Provenance.

(** ** The words of a string, as [split()] gives them *)

Section Words.
Context {U : Unicode}.

Lemma flush_reverse (word : str) : word ≠ [] → flush (reverse word) = [word].
Proof.
  intros Hw. unfold flush. destruct (reverse word) as [|c r] eqn:E.
  - apply (f_equal reverse) in E. rewrite reverse_involutive in E. done.
  - by rewrite <- E, reverse_involutive.
Qed.

Lemma split_runs_app cur word rest :
  Forall (λ c, isspace c = false) word →
  split_runs cur (word ++ rest) = split_runs (reverse word ++ cur) rest.
Proof.
  revert cur. induction word as [|c word IH]; intros cur Hw; [done|].
  inversion Hw as [|? ? Hc Hw']; subst. cbn [app split_runs]. rewrite Hc.
  rewrite IH by done. by rewrite reverse_cons, <- app_assoc.
Qed.

Lemma split_words_word word : wordlike word → split_words word = [word].
Proof.
  intros [Hne Hw]. unfold split_words.
  rewrite <- (app_nil_r word) at 1. rewrite split_runs_app by done.
  rewrite app_nil_r. by apply flush_reverse.
Qed.

Context {W : WordFacts}.

(** Round trip: the join of words with single spaces is split into these
    words again. *)
Lemma split_words_join ws :
  Forall wordlike ws → split_words (join (lit " ") ws) = ws.
Proof.
  induction 1 as [|x ws Hx Hws IH]; [done|].
  destruct ws as [|y ws]; [by apply split_words_word|].
  change (join (lit " ") (x :: y :: ws))
    with (x ++ 32%N :: join (lit " ") (y :: ws)).
  destruct Hx as [Hne Hx]. unfold split_words in *.
  rewrite split_runs_app by done. rewrite app_nil_r.
  cbn [split_runs]. rewrite isspace_space, flush_reverse by done.
  by rewrite IH.
Qed.

Lemma findall_go_wordlike cur s :
  Forall (λ c, isspace c = false) cur → Forall wordlike (findall_go cur s).
Proof.
  assert (∀ cur, Forall (λ c, isspace c = false) cur → Forall wordlike (flush cur))
    as Hflush.
  { intros [|c r] Hc; [constructor|]. repeat constructor.
    - intros He. apply (f_equal length) in He. by rewrite length_reverse in He.
    - by apply Forall_reverse. }
  revert cur. induction s as [|c s IH]; intros cur Hcur; simpl; [by apply Hflush|].
  destruct (is_word c) eqn:Hc.
  - apply IH. constructor; [|done]. by apply isspace_word.
  - apply Forall_app. split; [by apply Hflush|]. apply IH. constructor.
Qed.

Lemma findall_words_wordlike s : Forall wordlike (findall_words s).
Proof. apply findall_go_wordlike. constructor. Qed.

Lemma capitalized_wordlike prompt ws :
  Forall wordlike ws → Forall wordlike (capitalized prompt ws).
Proof.
  destruct 1 as [|first rest Hf Hr]; [done|]. simpl.
  destruct (starts_upper prompt); [|by constructor].
  constructor; [|done]. destruct Hf as [Hne Hf].
  destruct first as [|c s]; [done|].
  inversion Hf as [|? ? Hc Hs]; subst. split; simpl.
  - intros [He _]%app_eq_nil. by apply (upper_nonempty c).
  - apply Forall_app. split; [by apply upper_no_space|by apply lower_no_space].
Qed.

(** The words of the table of any corpus are words to the reader. *)
Lemma init_wordlike corpus w :
  table_all wordlike (chain (__init__from corpus w).2).
Proof. apply init_table_all, findall_words_wordlike. Qed.

(** Splitting the string [generate] returns gives back the list of words it
    has built, which has at least [max_length] words and at least two. *)
Lemma generate_split prompt max_length w :
  chain w ≠ [] → table_all wordlike (chain w) →
  ∃ ws w',
    generate_words prompt max_length w = (Ret ws, w') ∧
    generate prompt max_length w =
      (Ret (join (lit " ") (capitalized prompt ws)), w') ∧
    split_words (join (lit " ") (capitalized prompt ws)) = capitalized prompt ws ∧
    max_length ≤ len ws ∧ 2 ≤ len ws.
Proof.
  intros Hne Hd.
  destruct (generate_words_run prompt max_length w Hne)
    as (ws & more & w' & _ & Hg & Hl & Hb).
  assert (2 ≤ len (ws ++ more)) as Hl2.
  { rewrite len_app. pose proof (len_nonneg more). lia. }
  assert (ws ++ more ≠ []) as Hws.
  { intros He. rewrite He in Hl2. done. }
  exists (ws ++ more), w'. split; [done|]. split; [by apply generate_run|].
  split; [|lia].
  apply split_words_join, capitalized_wordlike.
  eapply generate_words_keeps; [exact Hd|apply findall_words_wordlike|exact Hg].
Qed.
End Words.

(** ** Calls of [generate] *)

Section Generate.
Context {U : Unicode}.

Lemma capitalized_app prompt ws more :
  ws ≠ [] → capitalized prompt (ws ++ more) = capitalized prompt ws ++ more.
Proof.
  destruct ws as [|first rest]; [done|]. intros _. simpl.
  by destruct (starts_upper prompt).
Qed.

Lemma join_app_prefix sep (ws more : list str) :
  ws ≠ [] → join sep ws `prefix_of` join sep (ws ++ more).
Proof.
  induction ws as [|x [|y ws] IH]; [done| |]; intros _.
  - destruct more as [|z more]; simpl; [done|]. by eexists.
  - specialize (IH ltac:(done)). destruct IH as [k Hk].
    exists k. change (join sep ((x :: y :: ws) ++ more))
      with (x ++ sep ++ join sep ((y :: ws) ++ more)).
    rewrite Hk. change (join sep (x :: y :: ws)) with (x ++ sep ++ join sep (y :: ws)).
    by rewrite <- !app_assoc.
Qed.

(** C3: a prompt of two tokens or more.  When the pair of its last two
    tokens is a key of the table, the words returned begin with all the
    tokens of the prompt; when it is not, they begin with the two words of
    the key the random source picks among the keys of the table, and the
    tokens of the prompt are dropped.  The first word is capitalised when
    the prompt begins with an upper-case character. *)
Theorem C3_prompt_kept_or_random_key :
  ∀ (prompt : str) (max_length : Z) (w : world) (pre : list str) (a b : str)
    (seed : bigram),
    findall_words (lower prompt) = pre ++ [a; b] →
    random_key w = Some seed →
    let opening :=
      if bool_decide ((a, b) ∈ dict_keys (chain w)) then pre ++ [a; b]
      else [seed.1; seed.2] in
    seed ∈ dict_keys (chain w) ∧
    ∃ rest w',
      generate_words prompt max_length w = (Ret (opening ++ rest), w') ∧
      generate prompt max_length w =
        (Ret (join (lit " ") (capitalized prompt (opening ++ rest))), w') ∧
      join (lit " ") (capitalized prompt opening)
        `prefix_of` join (lit " ") (capitalized prompt (opening ++ rest)).
Proof.
  intros prompt max_length w pre a b seed Hpw Hseed opening.
  split; [by apply random_key_elem|].
  assert (chain w ≠ []) as Hne.
  { intros He. unfold random_key, dict_keys in Hseed. by rewrite He in Hseed. }
  assert (2 ≤ len opening) as Hlo.
  { unfold opening. destruct (bool_decide _); [|done].
    rewrite len_app. pose proof (len_nonneg pre). change (len [a; b]) with 2. lia. }
  assert (∃ w1, chain w1 = chain w ∧
            start (findall_words (lower prompt)) w = (Ret opening, w1))
    as (w1 & Hc & Hst).
  { rewrite Hpw. unfold opening.
    destruct (bool_decide ((a, b) ∈ dict_keys (chain w))) eqn:E.
    - apply bool_decide_eq_true, dict_get_keys in E.
      exists w. by rewrite start_known.
    - apply bool_decide_eq_false in E. rewrite <- dict_get_keys in E.
      rewrite start_unknown, random_start_run, Hseed.
      + by exists (advance w).
      + destruct (dict_get (a, b) (chain w)); [|done]. by destruct E. }
  destruct (while_run (Z.to_nat max_length) max_length opening w1)
    as (rest & w' & Hw & _ & _); [done|by rewrite Hc|lia|].
  assert (generate_words prompt max_length w = (Ret (opening ++ rest), w')) as Hg.
  { unfold generate_words. by rewrite (bind_ret _ _ _ _ _ Hst). }
  assert (opening ≠ []) as Ho by (intros He; rewrite He in Hlo; done).
  exists rest, w'. split; [done|]. split.
  - apply generate_run; [done|]. by destruct opening.
  - rewrite capitalized_app by done. apply join_app_prefix.
    intros He. apply (f_equal len) in He. rewrite len_capitalized in He.
    rewrite He in Hlo. done.
Qed.

(** C4: with a table that is not empty, [generate] returns a string, for
    every prompt, random source and [max_length] (2 or more, or less), and
    the string has at least [max_length] words and at least two.  The words
    of the string are those [split()] finds in it, the runs of characters
    that are no whitespace.  The words of the table are taken to be words in
    this sense, not empty and without whitespace, as they are in every table
    [__init__] builds ([init_wordlike]): a table with the empty string for
    a word would give a string of spaces. *)
Theorem C4_at_least_max_length_words `{!WordFacts} :
  ∀ (prompt : str) (max_length : Z) (w : world),
    chain w ≠ [] →
    table_all wordlike (chain w) →
    ∃ s w',
      generate prompt max_length w = (Ret s, w') ∧
      max_length ≤ len (split_words s) ∧ 2 ≤ len (split_words s).
Proof.
  intros prompt max_length w Hne Hd.
  destruct (generate_split prompt max_length w Hne Hd)
    as (ws & w' & _ & Hrun & Hsplit & Hmax & Htwo).
  eexists _, w'. split; [exact Hrun|].
  rewrite Hsplit, len_capitalized. done.
Qed.

(** The same with the table of any corpus. *)
Corollary generate_word_count `{!WordFacts} corpus w0 prompt max_length :
  let w := (__init__from corpus w0).2 in
  chain w ≠ [] →
  ∃ s w',
    generate prompt max_length w = (Ret s, w') ∧
    max_length ≤ len (split_words s) ∧ 2 ≤ len (split_words s).
Proof.
  intros w Hne.
  destruct (generate_split prompt max_length w Hne (init_wordlike corpus w0))
    as (ws & w' & _ & Hrun & Hsplit & Hmax & Htwo).
  eexists _, w'. split; [exact Hrun|].
  rewrite Hsplit, len_capitalized. done.
Qed.

(** The bound that does hold: the prompt, when it is kept, is never cut. *)
Lemma generate_words_at_most prompt max_length w ws w' :
  generate_words prompt max_length w = (Ret ws, w') →
  len ws ≤ Z.max (Z.max 2 (len (findall_words (lower prompt)))) (max_length + 1).
Proof.
  intros Hg.
  destruct (decide (chain w = [])) as [He|Hne].
  { unfold generate_words in Hg.
    rewrite (bind_raise _ _ _ _ _ (start_empty _ _ He)) in Hg. done. }
  destruct (generate_words_run prompt max_length w Hne)
    as (ws0 & more & w1 & Hst & Hg' & Hl & Hb).
  rewrite Hg in Hg'. injection Hg' as -> ->.
  pose proof (start_started w (findall_words (lower prompt))) as Hs.
  rewrite Hst in Hs. inversion Hs; subst; try (change (len [_; _]) with 2 in *); lia.
Qed.

(** C7 (as the code has it): with an empty table every call of [generate]
    ends with the [IndexError] that [random.choice] raises on an empty
    sequence, whatever the prompt, the length asked for and the random
    source; the world is left as it was. *)
Theorem C7_empty_table_raises_IndexError :
  ∀ (prompt : str) (max_length : Z) (random : nat → nat),
    let w := {| chain := []; draws := random |} in
    generate prompt max_length w = (Raise empty_choice, w) ∧
    choice (dict_keys (chain w)) w = (Raise empty_choice, w).
Proof.
  intros prompt max_length random w. split; [|done].
  unfold generate, generate_words.
  apply bind_raise, bind_raise, start_empty. done.
Qed.

(** C9: when the prompt is not empty and its first character is upper
    case, the first of the generated words is replaced by its
    capitalisation, the upper case of its first character followed by the
    lower case of the rest; otherwise the words are left as they are.  The
    words are then joined with single spaces. *)
Theorem C9_first_word_capitalised :
  ∀ (prompt : str) (max_length : Z) (w : world),
    chain w ≠ [] →
    ∃ first rest w',
      generate_words prompt max_length w = (Ret (first :: rest), w') ∧
      generate prompt max_length w =
        (Ret (join (lit " ")
                (match prompt, first with
                 | p :: _, c :: s =>
                     if isupper p then (upper c ++ lower s) :: rest
                     else first :: rest
                 | _, _ => first :: rest
                 end)), w').
Proof.
  intros prompt max_length w Hne.
  destruct (generate_words_run prompt max_length w Hne)
    as (ws & more & w' & _ & Hg & Hl & _).
  destruct (ws ++ more) as [|first rest] eqn:Hws.
  { apply (f_equal len) in Hws. rewrite len_app in Hws.
    pose proof (len_nonneg more). change (len []) with 0 in Hws. lia. }
  exists first, rest, w'. split; [done|].
  rewrite (generate_run _ _ _ _ _ Hg) by done. do 2 f_equal.
  unfold capitalized, starts_upper, capitalize.
  destruct prompt as [|p prompt]; [by destruct first|].
  destruct (isupper p); destruct first; try done.
Qed.
End Generate.

(** Every key of the table is the choice of some random source. *)
Lemma every_key_can_be_drawn (d : table) (key : bigram) :
  key ∈ dict_keys d →
  ∃ random : nat → nat, random_key {| chain := d; draws := random |} = Some key.
Proof.
  intros (i & Hi)%list_elem_of_lookup. exists (λ _, i).
  unfold random_key, drawn. cbn [chain draws].
  destruct (dict_keys d) as [|k ks] eqn:Hk; [done|]. f_equal.
  pose proof (lookup_lt_Some _ _ _ Hi) as Hlt.
  rewrite Nat.mod_small by done. by apply nth_lookup_Some.
Qed.

(** ** The table of the corpus *)

Lemma text_generator_built :
  (__init__ (U := ascii_tables) loaded).1 = Ret () ∧
  chain (__init__ (U := ascii_tables) loaded).2 = text_generator.
Proof. by vm_compute. Qed.

Lemma text_generator_size : length text_generator = 574%nat.
Proof. by vm_compute. Qed.

(** C5 (the code at an input that breaks the bound): the prompt has five
    tokens and the pair of its last two is a key of the table, so all five
    are kept although [max_length] is 2; no random choice is made. *)
Theorem C5_long_prompt_is_not_cut :
  ∀ random : nat → nat,
    let w := {| chain := text_generator; draws := random |} in
    generate_words (U := ascii_tables) (lit "alice was beginning to get") 2 w =
      (Ret (lit <$> ["alice"; "was"; "beginning"; "to"; "get"]%string), w) ∧
    generate (U := ascii_tables) (lit "alice was beginning to get") 2 w =
      (Ret (lit "alice was beginning to get"), w) ∧
    word_count (lit "alice was beginning to get") = 5 ∧
    ¬ word_count (lit "alice was beginning to get") ≤ 2 + 1.
Proof. intros random w. repeat split; [by vm_compute..|]. by vm_compute. Qed.

(** C7 as the specification has it fails: with an empty table the call ends
    with the very exception of the empty selection. *)
Lemma C7_counterexample :
  let w := {| chain := []; draws := λ _, O |} in
  (generate (U := ascii_tables) (lit "once upon a time") 50 w).1 =
    Raise (IndexError "Cannot choose from an empty sequence") ∧
  (choice (dict_keys (chain w)) w).1 =
    Raise (IndexError "Cannot choose from an empty sequence").
Proof. by vm_compute. Qed.

Lemma ascii_isspace_false (c : char) :
  @isspace ascii_tables c = false ↔ (c < 9 ∨ (13 < c ∧ c < 28) ∨ 32 < c)%N.
Proof.
  unfold isspace, ascii_tables, between.
  rewrite orb_false_iff, !andb_false_iff, !N.leb_gt. lia.
Qed.

#[export] Instance ascii_word_facts : WordFacts (U := ascii_tables).
Proof.
  split.
  - done.
  - intros c Hc. apply ascii_isspace_false.
    unfold is_word, isalnum, ascii_tables, between in Hc.
    rewrite !orb_true_iff, !andb_true_iff, !N.leb_le, N.eqb_eq in Hc. lia.
  - intros s Hs. rewrite Forall_forall in *.
    intros x (c & -> & Hin)%list_elem_of_fmap.
    specialize (Hs c Hin). rewrite ascii_isspace_false in *.
    unfold between.
    destruct (N.leb_spec 65 c), (N.leb_spec c 90); simpl; lia.
  - intros c Hc. repeat constructor. rewrite ascii_isspace_false in *.
    unfold between.
    destruct (N.leb_spec 97 c), (N.leb_spec c 122); simpl; lia.
  - done.
Qed.

(** Blank fragments are no words: runs of spaces, and spaces at either end,
    add nothing to the words of a string. *)
Example split_words_skips_blanks :
  split_words (U := ascii_tables) (lit " Alice  was   ") = [lit "Alice"; lit "was"].
Proof. by vm_compute. Qed.

(** The words of the table of the corpus are not empty and have no
    whitespace. *)
Lemma text_generator_wordlike :
  table_all (wordlike (U := ascii_tables)) text_generator.
Proof.
  rewrite <- (proj2 text_generator_built). apply (init_wordlike (U := ascii_tables)).
Qed.

Lemma C3_witness :
  (lit "alice", lit "was") ∈ dict_keys (chain loaded) ∧
  ∃ rest w',
    generate_words (U := ascii_tables) (lit "Alice was") 4 loaded =
      (Ret ((lit <$> ["alice"; "was"]%string) ++ rest), w') ∧
    generate (U := ascii_tables) (lit "Alice was") 4 loaded =
      (Ret (join (lit " ")
              (capitalized (lit "Alice was")
                 ((lit <$> ["alice"; "was"]%string) ++ rest))), w') ∧
    join (lit " ") (capitalized (lit "Alice was") (lit <$> ["alice"; "was"]%string))
      `prefix_of`
    join (lit " ")
      (capitalized (lit "Alice was") ((lit <$> ["alice"; "was"]%string) ++ rest)).
Proof.
  apply (C3_prompt_kept_or_random_key (U := ascii_tables)
           (lit "Alice was") 4 loaded [] (lit "alice") (lit "was")
           (lit "alice", lit "was")).
  - vm_compute. reflexivity.
  - vm_compute. reflexivity.
Defined.

Lemma C4_witness :
  ∃ s w',
    generate (U := ascii_tables) (lit "Once upon a") 5 loaded = (Ret s, w') ∧
    5 ≤ len (split_words (U := ascii_tables) s) ∧
    2 ≤ len (split_words (U := ascii_tables) s).
Proof.
  apply (C4_at_least_max_length_words (U := ascii_tables)
           (lit "Once upon a") 5 loaded).
  - vm_compute. discriminate.
  - exact text_generator_wordlike.
Defined.

Lemma C9_witness :
  ∃ first rest w',
    generate_words (U := ascii_tables) (lit "Once upon a") 5 loaded =
      (Ret (first :: rest), w') ∧
    generate (U := ascii_tables) (lit "Once upon a") 5 loaded =
      (Ret (join (lit " ")
              (match lit "Once upon a", first with
               | p :: _, c :: s =>
                   if isupper p then (upper c ++ lower s) :: rest
                   else first :: rest
               | _, _ => first :: rest
               end)), w').
Proof.
  apply (C9_first_word_capitalised (U := ascii_tables)
           (lit "Once upon a") 5 loaded).
  vm_compute. discriminate.
Defined.

(** ** Sentences *)

Section Sentences.
Context {U : Unicode}.

Lemma has_boundary_cons c s : has_boundary (c :: s) = false → has_boundary s = false.
Proof. destruct s as [|b s]; [done|]. simpl. by intros [_ ?]%orb_false_iff. Qed.

Lemma has_boundary_app_r k s : has_boundary (k ++ s) = false → has_boundary s = false.
Proof. induction k as [|c k IH]; [done|]. intros H%has_boundary_cons. auto. Qed.

Lemma has_boundary_app_l s k : has_boundary (s ++ k) = false → has_boundary s = false.
Proof.
  induction s as [|a s IH]; [done|]. destruct s as [|b s]; [done|].
  change (has_boundary ((a :: b :: s) ++ k))
    with ((is_terminator a && isspace b) || has_boundary ((b :: s) ++ k)).
  intros [H1 H2]%orb_false_iff. simpl. rewrite H1. simpl. by apply IH.
Qed.

Lemma lstrip_suffix s : ∃ k, s = k ++ lstrip s.
Proof.
  induction s as [|c s [k IH]]; [by exists []|]. simpl.
  destruct (isspace c); [|by exists []].
  exists (c :: k). simpl. by rewrite <- IH.
Qed.

Lemma strip_infix s : ∃ k1 k2, s = k1 ++ strip s ++ k2.
Proof.
  destruct (lstrip_suffix s) as [k1 H1].
  destruct (lstrip_suffix (reverse (lstrip s))) as [k2 H2].
  exists k1, (reverse k2). unfold strip. rewrite <- reverse_app, <- H2.
  by rewrite reverse_involutive.
Qed.

Lemma has_boundary_strip s : has_boundary s = false → has_boundary (strip s) = false.
Proof.
  destruct (strip_infix s) as (k1 & k2 & Hs). rewrite Hs at 1.
  intros H%has_boundary_app_r. by apply has_boundary_app_l in H.
Qed.

(** Without a boundary nothing is cut. *)
Lemma split_go_no_boundary prev s :
  has_boundary s = false →
  (from_option is_terminator false prev && from_option isspace false (head s)) = false →
  split_go prev false s = [s].
Proof.
  revert prev. induction s as [|c s IH]; intros prev Hs Hp; [done|].
  simpl in Hp. cbn [split_go]. rewrite andb_false_r.
  rewrite andb_comm, Hp. rewrite IH; [done|by eapply has_boundary_cons|].
  destruct s as [|b s]; [by rewrite andb_false_r|].
  simpl in *. by apply orb_false_iff in Hs as [? _].
Qed.

Lemma split_sentences_no_boundary s :
  has_boundary s = false → split_sentences s = [s].
Proof. intros Hs. by apply split_go_no_boundary. Qed.

Lemma tokenize_sentences_no_boundary text :
  has_boundary text = false → len (_tokenize_sentences text) ≤ 1.
Proof.
  intros Hs%has_boundary_strip. unfold _tokenize_sentences.
  rewrite split_sentences_no_boundary by done.
  unfold len. pose proof (length_filter (λ s : list N, s ≠ []) [strip text]) as Hl.
  simpl in Hl. lia.
Qed.

Variable stopwords : gset str.

(** C1: a text with at most [max_sentences] sentences is returned as it
    is, the very string that was passed. *)
Theorem C1_few_sentences_returned_unchanged :
  ∀ (text : str) (max_sentences : Z),
    len (_tokenize_sentences text) ≤ max_sentences →
    summarize stopwords text max_sentences = text.
Proof.
  intros text max_sentences Hl. unfold summarize.
  destruct (len (_tokenize_sentences text) <=? max_sentences) eqn:E; [done|].
  apply Z.leb_gt in E. lia.
Qed.

(** C10: a text in which no [.], [!] or [?] is followed by whitespace has
    at most one sentence, and for [max_sentences] of 1 or more it is
    returned as it is. *)
Theorem C10_no_boundary_returned_unchanged :
  ∀ (text : str) (max_sentences : Z),
    1 ≤ max_sentences →
    has_boundary text = false →
    len (_tokenize_sentences text) ≤ 1 ∧
    summarize stopwords text max_sentences = text.
Proof.
  intros text max_sentences Hn Hs.
  pose proof (tokenize_sentences_no_boundary text Hs) as Hl.
  split; [done|]. unfold summarize.
  destruct (len (_tokenize_sentences text) <=? max_sentences) eqn:E; [done|].
  apply Z.leb_gt in E. lia.
Qed.
End Sentences.

(** ** [sorted] *)

Section SortedFacts.
Context {A K : Type} (lt : K → K → bool) (key : A → K).

Lemma insert_sorted_Permutation x l : insert_sorted lt key x l ≡ₚ x :: l.
Proof.
  induction l as [|y l IH]; simpl; [done|].
  destruct (lt (key y) (key x)); [|done].
  rewrite IH. apply Permutation_swap.
Qed.

Lemma sorted_Permutation l : sorted lt key l ≡ₚ l.
Proof.
  induction l as [|x l IH]; simpl; [done|].
  by rewrite insert_sorted_Permutation, IH.
Qed.

Lemma length_sorted l : length (sorted lt key l) = length l.
Proof. apply Permutation_length, sorted_Permutation. Qed.

Hypothesis lt_asym : ∀ a b, lt a b = true → lt b a = false.
Hypothesis le_trans : ∀ a b c, lt b a = false → lt c b = false → lt c a = false.

Lemma insert_sorted_StronglySorted x l :
  StronglySorted (key_le lt key) l → StronglySorted (key_le lt key) (insert_sorted lt key x l).
Proof.
  induction 1 as [|y l Hl IH Hy]; simpl; [by repeat constructor|].
  destruct (lt (key y) (key x)) eqn:E.
  - constructor; [done|]. rewrite insert_sorted_Permutation.
    constructor; [|done]. by apply lt_asym.
  - constructor; [by constructor|]. constructor; [done|].
    eapply Forall_impl; [exact Hy|]. intros z Hz. by eapply le_trans.
Qed.

Lemma sorted_StronglySorted l : StronglySorted (key_le lt key) (sorted lt key l).
Proof.
  induction l as [|x l IH]; simpl; [constructor|].
  by apply insert_sorted_StronglySorted.
Qed.
End SortedFacts.

Lemma Z_ltb_asym a b : (a <? b) = true → (b <? a) = false.
Proof. lia. Qed.

Lemma Z_leb_trans a b c : (b <? a) = false → (c <? b) = false → (c <? a) = false.
Proof. lia. Qed.

Lemma pair_lt_spec a b :
  pair_lt a b = true ↔ a.1 < b.1 ∨ (a.1 = b.1 ∧ a.2 < b.2).
Proof.
  unfold pair_lt. rewrite orb_true_iff, andb_true_iff. lia.
Qed.

Lemma pair_lt_false a b :
  pair_lt a b = false ↔ b.1 < a.1 ∨ (a.1 = b.1 ∧ b.2 ≤ a.2).
Proof.
  rewrite <- not_true_iff_false, pair_lt_spec. lia.
Qed.

Lemma pair_lt_asym a b : pair_lt a b = true → pair_lt b a = false.
Proof. rewrite pair_lt_spec, pair_lt_false. lia. Qed.

Lemma pair_le_trans a b c :
  pair_lt b a = false → pair_lt c b = false → pair_lt c a = false.
Proof. rewrite !pair_lt_false. lia. Qed.

(** ** Scores *)

Section Scores.
Context {U : Unicode}.
Variable stopwords : gset str.

Lemma occurrences_nil word : occurrences word [] = 0.
Proof. reflexivity. Qed.

Lemma occurrences_cons word w ws :
  occurrences word (w :: ws) =
    (if decide (w = word) then 1 else 0) + occurrences word ws.
Proof.
  unfold occurrences, len. rewrite filter_cons.
  destruct (decide (w = word)); simpl; lia.
Qed.

Lemma occurrences_app word ws1 ws2 :
  occurrences word (ws1 ++ ws2) = occurrences word ws1 + occurrences word ws2.
Proof. unfold occurrences. by rewrite filter_app, len_app. Qed.

Lemma foldl_count_word freq ws word :
  word ∉ stopwords →
  default 0 (foldl (count_word stopwords) freq ws !! word) =
    default 0 (freq !! word) +
    occurrences word (filter (λ w, w ∉ stopwords) ws).
Proof.
  intros Hw. revert freq. induction ws as [|x ws IH]; intros freq; simpl.
  - rewrite filter_nil, occurrences_nil. lia.
  - rewrite IH. unfold count_word. rewrite filter_cons.
    destruct (decide (x ∉ stopwords)) as [Hx|Hx].
    + rewrite bool_decide_eq_false_2 by done. rewrite occurrences_cons.
      destruct (decide (x = word)) as [->|Hne].
      * rewrite lookup_insert_eq. simpl. lia.
      * rewrite lookup_insert_ne by done. lia.
    + rewrite bool_decide_eq_true_2; [done|]. by apply dec_stable.
Qed.

Lemma foldl_count_sentence freq sentences word :
  word ∉ stopwords →
  default 0 (foldl (count_sentence stopwords) freq sentences !! word) =
    default 0 (freq !! word) + global_frequency stopwords sentences word.
Proof.
  intros Hw. unfold global_frequency. revert freq.
  induction sentences as [|s sentences IH]; intros freq; cbn [foldl].
  - change ([] ≫= content_words stopwords) with (@nil (list N)).
    rewrite occurrences_nil. lia.
  - rewrite IH, bind_cons. unfold count_sentence.
    rewrite foldl_count_word by done.
    rewrite occurrences_app. unfold content_words. lia.
Qed.

Lemma word_frequencies_lookup sentences word :
  word ∉ stopwords →
  default 0 (word_frequencies stopwords sentences !! word) =
    global_frequency stopwords sentences word.
Proof.
  intros Hw. unfold word_frequencies.
  rewrite foldl_count_sentence by done. by rewrite lookup_empty.
Qed.

Lemma foldl_add_score sentences score ws :
  foldl (add_score stopwords (word_frequencies stopwords sentences)) score ws =
    score + sum_Z (global_frequency stopwords sentences <$> filter (λ w, w ∉ stopwords) ws).
Proof.
  revert score. induction ws as [|x ws IH]; intros score; cbn [foldl].
  { rewrite filter_nil. cbn. lia. }
  rewrite IH. unfold add_score. rewrite filter_cons.
  destruct (decide (x ∉ stopwords)) as [Hx|Hx].
  - rewrite bool_decide_eq_false_2 by done.
    rewrite word_frequencies_lookup by done. rewrite fmap_cons. cbn [sum_Z foldr].
    fold (sum_Z (global_frequency stopwords sentences <$> filter (λ w, w ∉ stopwords) ws)).
    lia.
  - rewrite bool_decide_eq_true_2; [done|]. by apply dec_stable.
Qed.

(** The score the code computes is the score of the specification. *)
Lemma score_of_sentence_score sentences sentence :
  score_of stopwords (word_frequencies stopwords sentences) sentence =
    sentence_score stopwords sentences sentence.
Proof. unfold score_of. by rewrite foldl_add_score. Qed.

Lemma score_sentences_lookup sentences i :
  score_sentences stopwords sentences !! i =
    (λ s, (sentence_score stopwords sentences s, Z.of_nat i, s)) <$> sentences !! i.
Proof.
  unfold score_sentences. rewrite list_lookup_imap.
  destruct (sentences !! i) as [s|]; simpl; [|done].
  by rewrite score_of_sentence_score.
Qed.

Lemma elem_of_score_sentences sentences e :
  e ∈ score_sentences stopwords sentences ↔
  ∃ i s, sentences !! i = Some s ∧ e = (sentence_score stopwords sentences s, Z.of_nat i, s).
Proof.
  rewrite list_elem_of_lookup. split.
  - intros [i Hi]. rewrite score_sentences_lookup in Hi.
    destruct (sentences !! i) as [s|] eqn:Hs; [|done].
    injection Hi as <-. by exists i, s.
  - intros (i & s & Hs & ->). exists i.
    by rewrite score_sentences_lookup, Hs.
Qed.

Lemma length_score_sentences sentences :
  length (score_sentences stopwords sentences) = length sentences.
Proof. unfold score_sentences. apply length_imap. Qed.

Lemma score_sentences_NoDup sentences :
  NoDup ((λ x : Z * Z * str, x.1.2) <$> score_sentences stopwords sentences).
Proof.
  apply NoDup_alt. intros i j x.
  rewrite !list_lookup_fmap, !score_sentences_lookup.
  destruct (sentences !! i), (sentences !! j); simpl; try done.
  intros [= <-] [= ?]. lia.
Qed.
End Scores.

(** ** Summaries *)

Section Summaries.
Context {U : Unicode}.
Variable stopwords : gset str.

Lemma slice_to_take {A} (n : Z) (l : list A) :
  0 ≤ n → slice_to n l = take (Z.to_nat n) l.
Proof. intros Hn. unfold slice_to. by rewrite (proj2 (Z.leb_le _ _) Hn). Qed.

(** A list in the order of [sorted] by position, with no position twice,
    has its positions strictly ascending. *)
Lemma ascending_positions (l : list (Z * Z * str)) :
  StronglySorted (key_le Z.ltb (λ x : Z * Z * str, x.1.2)) l →
  NoDup ((λ x : Z * Z * str, x.1.2) <$> l) →
  Forall (λ x : Z * Z * str, 0 ≤ x.1.2) l →
  StronglySorted (λ a b : nat * str, (a.1 < b.1)%nat)
    ((λ x : Z * Z * str, (Z.to_nat x.1.2, x.2)) <$> l).
Proof.
  induction 1 as [|x l Hl IH Hx]; intros Hnd Hpos; [constructor|].
  rewrite fmap_cons in Hnd. apply NoDup_cons in Hnd as [Hnx Hnd].
  apply Forall_cons in Hpos as [Hx0 Hpos].
  rewrite fmap_cons. constructor; [by apply IH|].
  apply Forall_fmap, Forall_forall. intros y Hy. simpl.
  rewrite Forall_forall in Hx, Hpos.
  specialize (Hx y Hy). specialize (Hpos y Hy). unfold key_le in Hx.
  assert (x.1.2 ≠ y.1.2).
  { intros Heq. apply Hnx. rewrite Heq.
    by apply (list_elem_of_fmap_2 (λ x : Z * Z * str, x.1.2)). }
  lia.
Qed.

(** C2: a text with more sentences than [max_sentences].  The summary is
    the join, with single spaces, of [max_sentences] sentences of the text,
    taken at ascending positions; the score of a sentence is the sum, over
    the occurrences of its words that are no stopwords, of the frequency of
    the word among such words of all sentences; and every sentence taken
    goes before every sentence left out in the ranking by falling score,
    the earlier position first among equal scores. *)
Theorem C2_top_sentences_in_original_order :
  ∀ (text : str) (max_sentences : Z),
    let sentences := _tokenize_sentences text in
    let score := sentence_score stopwords sentences in
    0 ≤ max_sentences < len sentences →
    ∃ chosen : list (nat * str),
      summarize stopwords text max_sentences = join (lit " ") (chosen.*2) ∧
      len chosen = max_sentences ∧
      (∀ i s, (i, s) ∈ chosen → sentences !! i = Some s) ∧
      StronglySorted (λ a b, (a.1 < b.1)%nat) chosen ∧
      (∀ i s j s',
         (i, s) ∈ chosen → sentences !! j = Some s' → (j, s') ∉ chosen →
         score s' < score s ∨ (score s' = score s ∧ (i < j)%nat)).
Proof.
  intros text n sentences score [Hn0 Hn].
  set (L := score_sentences stopwords sentences).
  set (key1 := λ x : Z * Z * str, (- x.1.1, x.1.2)).
  set (idx := λ x : Z * Z * str, x.1.2).
  set (L1 := sorted pair_lt key1 L).
  set (top := take (Z.to_nat n) L1).
  set (L2 := sorted Z.ltb idx top).
  set (pick := λ x : Z * Z * str, (Z.to_nat x.1.2, x.2)).
  assert (L1 ≡ₚ L) as HL1 by apply sorted_Permutation.
  assert (L2 ≡ₚ top) as HL2 by apply sorted_Permutation.
  assert (∀ e, e ∈ L2 → e ∈ L) as Hsub.
  { intros e He. rewrite HL2 in He. rewrite <- HL1.
    eapply elem_of_sublist; [done|apply sublist_take]. }
  assert (∀ e, e ∈ L →
            ∃ i s, sentences !! i = Some s ∧ e = (score s, Z.of_nat i, s)) as HL.
  { intros e He. by apply elem_of_score_sentences in He. }
  assert (∀ i s, (i, s) ∈ pick <$> L2 →
            sentences !! i = Some s ∧ (score s, Z.of_nat i, s) ∈ L2) as Hpick.
  { intros i s (e & He & Hin)%list_elem_of_fmap.
    destruct (HL e (Hsub e Hin)) as (i0 & s0 & Hs0 & ->).
    unfold pick in He. simpl in He. injection He as -> ->.
    rewrite Nat2Z.id. done. }
  exists (pick <$> L2). repeat split.
  - unfold summarize. fold sentences.
    destruct (len sentences <=? n) eqn:E; [lia|].
    rewrite slice_to_take by done. fold L key1 L1 top idx L2.
    f_equal. rewrite <- list_fmap_compose. done.
  - unfold len. rewrite length_fmap. unfold L2. rewrite length_sorted.
    unfold top. rewrite length_take_le; [lia|].
    unfold L1. rewrite length_sorted. unfold L.
    rewrite length_score_sentences. unfold len in Hn. lia.
  - intros i s Hi. by apply Hpick.
  - apply ascending_positions.
    + apply sorted_StronglySorted; [apply Z_ltb_asym|apply Z_leb_trans].
    + rewrite HL2. unfold top. rewrite fmap_take.
      eapply sublist_NoDup; [|apply sublist_take].
      rewrite HL1. apply score_sentences_NoDup.
    + apply Forall_forall. intros e He.
      destruct (HL e (Hsub e He)) as (i0 & s0 & _ & ->). simpl. lia.
  - intros i s j s' Hi Hj Hout.
    destruct (Hpick i s Hi) as [Hs He].
    set (e := (score s, Z.of_nat i, s)) in *.
    set (e' := (score s', Z.of_nat j, s')).
    assert (e' ∈ L1) as He'.
    { rewrite HL1. apply elem_of_score_sentences. by exists j, s'. }
    rewrite <- (take_drop (Z.to_nat n) L1) in He'.
    apply elem_of_app in He' as [He'|He'].
    { exfalso. apply Hout. fold top in He'. rewrite <- HL2 in He'.
      apply (list_elem_of_fmap_2' pick _ e'); [done|].
      unfold pick, e'. simpl. by rewrite Nat2Z.id. }
    assert (key_le pair_lt key1 e e') as Hle.
    { eapply (StronglySorted_app_1_elem_of _ (take (Z.to_nat n) L1)); [|change (e ∈ top); by rewrite <- HL2|done].
      rewrite take_drop.
      apply sorted_StronglySorted; [apply pair_lt_asym|apply pair_le_trans]. }
    unfold key_le in Hle. apply pair_lt_false in Hle. simpl in Hle.
    destruct (decide (i = j)) as [->|Hne].
    { exfalso. apply Hout. rewrite Hs in Hj. by injection Hj as <-. }
    lia.
Qed.
End Summaries.

(** ** The summariser on concrete texts *)

(** C6 as the specification has it fails: the summary is not the first two
    sentences. *)
Lemma C6_counterexample :
  summarize (U := ascii_tables) text_summarizer (lit "A. B. C. D.") 2 ≠ lit "A. B.".
Proof. vm_compute. discriminate. Qed.

(** C6 (as the code has it): [summarize("A. B. C. D.", 2)] is ["B. C."].
    The word of the first sentence, in lower case, is the stopword [a], so
    that sentence has score 0 and the other three have score 1; the two
    earliest of these are taken. *)
Theorem C6_summary_of_four_letters :
  _tokenize_sentences (U := ascii_tables) (lit "A. B. C. D.") =
    lit <$> ["A."; "B."; "C."; "D."]%string ∧
  _tokenize_words (U := ascii_tables) (lit "A.") = [lit "a"] ∧
  lit "a" ∈ text_summarizer ∧
  score_sentences (U := ascii_tables) text_summarizer
      (lit <$> ["A."; "B."; "C."; "D."]%string) =
    [(0, 0, lit "A."); (1, 1, lit "B."); (1, 2, lit "C."); (1, 3, lit "D.")] ∧
  summarize (U := ascii_tables) text_summarizer (lit "A. B. C. D.") 2 = lit "B. C.".
Proof.
  split; [by vm_compute|]. split; [by vm_compute|]. split.
  - refine (bool_decide_unpack _ _). by vm_compute.
  - split; by vm_compute.
Qed.

Lemma C1_witness :
  summarize (U := ascii_tables) text_summarizer (lit "Only one sentence here.") 3 =
    lit "Only one sentence here.".
Proof.
  apply (C1_few_sentences_returned_unchanged (U := ascii_tables)).
  vm_compute. discriminate.
Defined.

Lemma C10_witness :
  len (_tokenize_sentences (U := ascii_tables) (lit "  v1.2 is out!Get it?")) ≤ 1 ∧
  summarize (U := ascii_tables) text_summarizer (lit "  v1.2 is out!Get it?") 1 =
    lit "  v1.2 is out!Get it?".
Proof.
  apply (C10_no_boundary_returned_unchanged (U := ascii_tables)).
  - vm_compute. discriminate.
  - vm_compute. reflexivity.
Defined.

Lemma C2_witness :
  let sentences :=
    _tokenize_sentences (U := ascii_tables)
      (lit "Cats purr. Dogs bark and dogs run. Cats and dogs play. Birds sing.") in
  let score := sentence_score (U := ascii_tables) text_summarizer sentences in
  ∃ chosen : list (nat * str),
    summarize (U := ascii_tables) text_summarizer
      (lit "Cats purr. Dogs bark and dogs run. Cats and dogs play. Birds sing.") 2 =
      join (lit " ") (chosen.*2) ∧
    len chosen = 2 ∧
    (∀ i s, (i, s) ∈ chosen → sentences !! i = Some s) ∧
    StronglySorted (λ a b, (a.1 < b.1)%nat) chosen ∧
    (∀ i s j s',
       (i, s) ∈ chosen → sentences !! j = Some s' → (j, s') ∉ chosen →
       score s' < score s ∨ (score s' = score s ∧ (i < j)%nat)).
Proof.
  apply (C2_top_sentences_in_original_order (U := ascii_tables) text_summarizer
           (lit "Cats purr. Dogs bark and dogs run. Cats and dogs play. Birds sing.") 2).
  vm_compute. split; [discriminate|reflexivity].
Defined.

Example summarize_cats_and_dogs :
  summarize (U := ascii_tables) text_summarizer
    (lit "Cats purr. Dogs bark and dogs run. Cats and dogs play. Birds sing.") 2 =
  lit "Dogs bark and dogs run. Cats and dogs play.".
Proof. by vm_compute. Qed.

(** ** The number of sentences *)

#[export] Instance ascii_facts : UnicodeFacts (U := ascii_tables).
Proof.
  split.
  - intros c. unfold is_terminator. rewrite !orb_true_iff, !N.eqb_eq.
    by intros [[->| ->]| ->].
  - done.
  - intros s Hs (c & Hc & Hin)%list_elem_of_fmap. apply Hs.
    unfold between in Hc.
    destruct (N.leb_spec 65 c), (N.leb_spec c 90); simpl in Hc; subst; try done; lia.
  - intros c Hc Hin%list_elem_of_singleton. unfold between in Hin.
    destruct (N.leb_spec 97 c), (N.leb_spec c 122); simpl in Hin; lia.
Qed.

Section SentenceCount.
Context {U : Unicode} {F : UnicodeFacts}.

Lemma length_split_go_pos prev insep s : (0 < length (split_go prev insep s))%nat.
Proof.
  revert prev insep. induction s as [|c s IH]; intros prev insep; cbn [split_go].
  - simpl. lia.
  - destruct (isspace c && insep); [apply IH|].
    destruct (isspace c && from_option is_terminator false prev); [simpl; lia|].
    specialize (IH (Some c) false).
    destruct (split_go (Some c) false s); simpl in *; lia.
Qed.

Lemma length_cons_head c pieces :
  pieces ≠ [] → length (cons_head c pieces) = length pieces.
Proof. by destruct pieces. Qed.

(** Every boundary begins one separator and every separator begins at a
    boundary. *)
Lemma length_split_go prev insep s :
  (insep = true → from_option isspace false prev = true) →
  length (split_go prev insep s) = S (boundaries (option_list prev ++ s)).
Proof.
  revert prev insep. induction s as [|c s IH]; intros prev insep Hin.
  - destruct prev; done.
  - assert (boundaries (option_list prev ++ c :: s) =
            ((if from_option is_terminator false prev && isspace c then 1 else 0)
             + boundaries (c :: s))%nat) as ->.
    { by destruct prev. }
    cbn [split_go]. destruct (isspace c) eqn:Hc; cbn [andb].
    + destruct insep.
      * rewrite (IH (Some c) true) by done.
        destruct prev as [p|]; [|by specialize (Hin eq_refl)].
        specialize (Hin eq_refl). cbn [from_option] in *.
        destruct (is_terminator p) eqn:Hp; [|done].
        apply isspace_terminator in Hp. congruence.
      * destruct (from_option is_terminator false prev); cbn [andb].
        -- cbn [length]. by rewrite (IH (Some c) true).
        -- rewrite length_cons_head, (IH (Some c) false); [done..|].
           intros He. pose proof (length_split_go_pos (Some c) false s) as Hl.
           rewrite He in Hl. simpl in Hl. lia.
    + rewrite andb_false_r. rewrite length_cons_head, (IH (Some c) false); [done..|].
      intros He. pose proof (length_split_go_pos (Some c) false s) as Hl.
      rewrite He in Hl. simpl in Hl. lia.
Qed.
Lemma lstrip_head s : from_option isspace false (head (lstrip s)) = false.
Proof.
  induction s as [|c s IH]; [done|]. simpl.
  by destruct (isspace c) eqn:Hc; [|simpl].
Qed.

(** A stripped string neither begins nor ends with whitespace. *)
Lemma strip_trimmed s :
  from_option isspace false (head (strip s)) = false ∧
  from_option isspace false (last (strip s)) = false.
Proof.
  unfold strip. rewrite head_reverse, last_reverse. split; [|apply lstrip_head].
  destruct (lstrip_suffix (reverse (lstrip s))) as [k Hk].
  destruct (last (lstrip (reverse (lstrip s)))) as [y|] eqn:Hy; [|done].
  assert (last (reverse (lstrip s)) = Some y) as Hl.
  { rewrite Hk, last_app, Hy. done. }
  rewrite last_reverse in Hl. pose proof (lstrip_head s) as Hh.
  by rewrite Hl in Hh.
Qed.

Lemma filter_all {A} (P : A → Prop) `{∀ x, Decision (P x)} (l : list A) :
  Forall P l → filter P l = l.
Proof.
  induction 1 as [|x l Hx Hl IH]; [done|].
  by rewrite filter_cons_True, IH.
Qed.

(** No piece of a string that ends without whitespace is empty, but for a
    first piece that a separator closes at once. *)
Lemma split_go_pieces prev insep s :
  s ≠ [] → from_option isspace false (last s) = false →
  Forall (λ p, p ≠ []) (tail (split_go prev insep s)) ∧
  (insep || negb (from_option isspace false (head s)
                  && from_option is_terminator false prev) = true →
   Forall (λ p, p ≠ []) (split_go prev insep s)).
Proof.
  revert prev insep. induction s as [|c s IH]; intros prev insep Hne Hlast; [done|].
  destruct s as [|c' s'].
  { simpl in Hlast. cbn [split_go]. rewrite Hlast. cbn [andb cons_head tail].
    split; [constructor|]. intros _. by repeat constructor. }
  rewrite last_cons_cons in Hlast.
  assert (c' :: s' ≠ []) as Hne' by done.
  remember (c' :: s') as t eqn:Ht. clear Ht c' s' Hne.
  cbn [split_go head from_option].
  destruct (isspace c) eqn:Hc; cbn [andb].
  - destruct insep.
    + destruct (IH (Some c) true) as [_ Hall]; [done..|].
      specialize (Hall eq_refl). split; [by apply Forall_tail|done].
    + destruct (from_option is_terminator false prev); cbn [andb negb orb tail].
      * destruct (IH (Some c) true) as [_ Hall]; [done..|].
        specialize (Hall eq_refl). split; [done|]. intros [=].
      * destruct (IH (Some c) false) as [Htl _]; [done..|].
        destruct (split_go (Some c) false t) as [|p ps]; cbn [cons_head tail] in *.
        -- split; [constructor|]. intros _. by repeat constructor.
        -- split; [done|]. intros _. by constructor.
  - destruct (IH (Some c) false) as [Htl _]; [done..|].
    destruct (split_go (Some c) false t) as [|p ps]; cbn [cons_head tail] in *.
    + split; [constructor|]. intros _. by repeat constructor.
    + split; [done|]. intros _. by constructor.
Qed.

(** X14: the list of sentences has as many elements as the specification
    counts: none for a blank text, and otherwise one more than there are
    boundaries in the text without the whitespace around it. *)
Theorem tokenize_sentences_count text :
  len (_tokenize_sentences text) = sentence_count text.
Proof.
  unfold _tokenize_sentences, sentence_count, split_sentences.
  destruct (strip_trimmed text) as [Hhead Hlast].
  destruct (strip text) as [|c s] eqn:Hs; [done|].
  destruct (split_go_pieces None false (c :: s)) as [_ Hall]; [done..|].
  rewrite filter_all by (apply Hall; simpl in *; by rewrite Hhead).
  unfold len. rewrite length_split_go by done. simpl (option_list None ++ _). lia.
Qed.
End SentenceCount.

(** ** Literals *)

Example lit_ascii : lit "A. b" = [65; 46; 32; 98]%N.
Proof. reflexivity. Qed.

(** The typographic quotes and the dash of the corpus, three bytes each. *)
Example utf8_corpus_punctuation : utf8 "‘’—" = [8216; 8217; 8212]%N.
Proof. reflexivity. Qed.

Example corpus_first_words :
  take 4 (findall_words (U := ascii_tables) (@lower ascii_tables _load_corpus)) =
    lit <$> ["alice"; "was"; "beginning"; "to"]%string.
Proof. by vm_compute. Qed.

(** [they’ll] is cut at the quote, which is no word character. *)
Example findall_words_quote :
  findall_words (U := ascii_tables) (utf8 "they’ll all") =
    lit <$> ["they"; "ll"; "all"]%string.
Proof. by vm_compute. Qed.

(** * The rest of the code *)

(** ** Tokens *)

Section Tokens.
Context {U : Unicode}.

Lemma findall_go_tokens cur s :
  Forall (λ c, is_word c = true) cur →
  Forall (λ w, w ≠ [] ∧ Forall (λ c, is_word c = true) w) (findall_go cur s).
Proof.
  assert (∀ cur, Forall (λ c, is_word c = true) cur →
            Forall (λ w, w ≠ [] ∧ Forall (λ c, is_word c = true) w) (flush cur))
    as Hflush.
  { intros [|c r] Hc; [constructor|]. repeat constructor.
    - intros He. apply (f_equal length) in He. by rewrite length_reverse in He.
    - by apply Forall_reverse. }
  revert cur. induction s as [|c s IH]; intros cur Hcur; simpl; [by apply Hflush|].
  destruct (is_word c) eqn:Hc.
  - apply IH. by constructor.
  - apply Forall_app. split; [by apply Hflush|]. apply IH. constructor.
Qed.

Lemma concat_findall_go cur s :
  concat (findall_go cur s) = reverse cur ++ filter (λ c, is_word c = true) s.
Proof.
  assert (∀ cur, concat (flush cur) = reverse cur) as Hflush.
  { intros [|c r]; [done|]. simpl. by rewrite app_nil_r. }
  revert cur. induction s as [|c s IH]; intros cur; cbn [findall_go].
  - by rewrite Hflush, filter_nil, app_nil_r.
  - rewrite filter_cons. destruct (is_word c) eqn:Hc.
    + rewrite decide_True by done. rewrite IH, reverse_cons.
      by rewrite <- app_assoc.
    + rewrite decide_False by done. rewrite concat_app, Hflush, IH.
      by rewrite reverse_nil.
Qed.

Lemma findall_go_separator cur a c b :
  is_word c = false →
  findall_go cur (a ++ c :: b) = findall_go cur a ++ findall_go [] b.
Proof.
  intros Hc. revert cur. induction a as [|x a IH]; intros cur; simpl.
  - by rewrite Hc.
  - destruct (is_word x); [apply IH|]. by rewrite IH, app_assoc.
Qed.

Lemma findall_go_run cur run :
  Forall (λ c, is_word c = true) run →
  findall_go cur run = flush (reverse run ++ cur).
Proof.
  intros Hrun. revert cur. induction Hrun as [|c run Hc Hrun IH]; intros cur; [done|].
  simpl. rewrite Hc, IH, reverse_cons. by rewrite <- app_assoc.
Qed.

(** X1: every token of a sentence is a run of word characters and is not
    empty. *)
Theorem X1_tokens_are_nonempty_words :
  ∀ sentence : str,
    Forall (λ w, w ≠ [] ∧ Forall (λ c, is_word c = true) w)
      (_tokenize_words sentence).
Proof.
  intros sentence. unfold _tokenize_words, findall_words.
  apply findall_go_tokens. constructor.
Qed.

(** X2: the tokens, one after the other, are the word characters of the
    sentence in lower case: the tokenizer drops the other characters and
    nothing else, and it keeps the order. *)
Theorem X2_tokens_keep_the_word_characters :
  ∀ sentence : str,
    concat (_tokenize_words sentence) =
      filter (λ c, is_word c = true) (lower sentence).
Proof.
  intros sentence. unfold _tokenize_words, findall_words.
  by rewrite concat_findall_go, reverse_nil.
Qed.

(** X3: a character that is no word character separates: the tokens of
    the string are those before it followed by those after it. *)
Theorem X3_tokens_split_at_a_separator :
  ∀ (a b : str) (c : char),
    is_word c = false →
    findall_words (a ++ c :: b) = findall_words a ++ findall_words b.
Proof. intros a b c Hc. unfold findall_words. by apply findall_go_separator. Qed.

(** X4: a run of word characters is one token, whole. *)
Theorem X4_a_run_is_one_token :
  ∀ run : str,
    run ≠ [] → Forall (λ c, is_word c = true) run →
    findall_words run = [run].
Proof.
  intros run Hne Hrun. unfold findall_words.
  rewrite findall_go_run, app_nil_r by done. unfold flush.
  destruct (reverse run) as [|c r] eqn:Hr.
  - apply (f_equal length) in Hr. rewrite length_reverse in Hr. by destruct run.
  - by rewrite <- Hr, reverse_involutive.
Qed.
End Tokens.

Lemma X3_witness :
  findall_words (U := ascii_tables) (lit "to" ++ 32%N :: lit "get") =
    findall_words (U := ascii_tables) (lit "to") ++
    findall_words (U := ascii_tables) (lit "get").
Proof.
  apply (X3_tokens_split_at_a_separator (U := ascii_tables)). reflexivity.
Defined.

Lemma X4_witness : findall_words (U := ascii_tables) (lit "rabbit_hole2") = [lit "rabbit_hole2"].
Proof.
  apply (X4_a_run_is_one_token (U := ascii_tables)).
  - discriminate.
  - vm_compute. repeat constructor.
Defined.

(** ** What the table holds *)

Lemma lookup_triples words k t :
  triples words !! k = Some t ↔
  words !! k = Some t.1.1 ∧ words !! S k = Some t.1.2 ∧ words !! S (S k) = Some t.2.
Proof.
  revert k. induction words as [|w0 words IH]; intros k.
  { simpl. split; [done|]. by intros [? _]. }
  destruct words as [|w1 [|w2 words]].
  { simpl. split; [done|]. destruct k; by intros (_ & ? & _). }
  { simpl. split; [done|]. destruct k as [|[|k]]; by intros (_ & _ & ?). }
  change (triples (w0 :: w1 :: w2 :: words))
    with (((w0, w1), w2) :: triples (w1 :: w2 :: words)).
  destruct k as [|k].
  - simpl. destruct t as [[a b] c]. simpl. split.
    + by intros [= -> -> ->].
    + by intros ([= ->] & [= ->] & [= ->]).
  - rewrite lookup_cons_ne_0 by done. simpl. apply IH.
Qed.

Lemma length_triples_cons w0 words :
  length (triples (w0 :: words)) = (length words - 1)%nat.
Proof.
  revert w0. induction words as [|w1 words IH]; intros w0; [done|].
  destruct words as [|w2 words]; [done|].
  change (triples (w0 :: w1 :: w2 :: words))
    with (((w0, w1), w2) :: triples (w1 :: w2 :: words)).
  cbn [length]. rewrite IH. cbn [length]. lia.
Qed.

Lemma length_triples words : length (triples words) = (length words - 2)%nat.
Proof.
  destruct words as [|w0 words]; [done|].
  rewrite length_triples_cons. cbn [length]. lia.
Qed.

Lemma index_of_nat {A} (l : list A) (k : nat) : index l (Z.of_nat k) = l !! k.
Proof.
  unfold index. destruct (Z.leb_spec 0 (Z.of_nat k)); [|lia]. by rewrite Nat2Z.id.
Qed.

Lemma build_round_triple words k t w :
  triples words !! k = Some t →
  build_round words (Z.of_nat k) w =
    (Ret (), {| chain := dict_append t.1 t.2 (chain w); draws := draws w |}).
Proof.
  intros (H0 & H1 & H2)%lookup_triples. unfold build_round, item.
  replace (Z.of_nat k + 1) with (Z.of_nat (S k)) by lia.
  replace (Z.of_nat k + 2) with (Z.of_nat (S (S k))) by lia.
  rewrite !index_of_nat, H0, H1, H2. by destruct t as [[a b] c].
Qed.

(** The loop over the positions does what a pass over the triples does. *)
Lemma build_rounds words k m w :
  (k + m ≤ length (triples words))%nat →
  for_each (Z.of_nat <$> seq k m) (build_round words) w =
    (Ret (), {| chain := record_all (chain w) (take m (drop k (triples words)));
                draws := draws w |}).
Proof.
  revert k w. induction m as [|m IH]; intros k w Hk.
  { by destruct w. }
  destruct (lookup_lt_is_Some_2 (triples words) k) as [t Ht]; [lia|].
  cbn [seq fmap list_fmap for_each].
  rewrite (bind_ret _ _ _ _ _ (build_round_triple _ _ _ w Ht)).
  rewrite IH by lia. cbn [chain draws].
  by rewrite (drop_S _ _ _ Ht).
Qed.

Section Table.
Context {U : Unicode}.

Lemma init_record_all corpus w :
  chain (__init__from corpus w).2 =
    record_all [] (triples (findall_words (lower corpus))).
Proof.
  unfold __init__from, _build_chain_from.
  set (words := findall_words (lower corpus)).
  change (for_each (range (len words - 2)) _)
    with (for_each (range (len words - 2)) (build_round words)).
  unfold range. rewrite build_rounds.
  - cbn [chain snd]. rewrite drop_0, take_ge; [done|].
    rewrite length_triples. unfold len. lia.
  - rewrite length_triples. unfold len. lia.
Qed.
End Table.

Lemma dict_get_append key k word d :
  dict_get key (dict_append k word d) =
    if decide (k = key) then Some (default [] (dict_get key d) ++ [word])
    else dict_get key d.
Proof.
  induction d as [|[k' v] d IH]; simpl.
  - destruct (decide (k = key)); done.
  - destruct (decide (k' = k)) as [->|Hne]; simpl.
    + destruct (decide (k = key)); done.
    + destruct (decide (k' = key)) as [->|Hne'].
      * by rewrite decide_False by done.
      * done.
Qed.

Lemma dict_get_record_all key d ts :
  dict_get key (record_all d ts) =
    match (filter (λ t, t.1 = key) ts).*2 with
    | [] => dict_get key d
    | fs => Some (default [] (dict_get key d) ++ fs)
    end.
Proof.
  revert d. induction ts as [|[k word] ts IH]; intros d; [done|].
  cbn [record_all foldl]. fold (record_all (dict_append k word d) ts).
  rewrite IH, dict_get_append, filter_cons. cbn [fst snd].
  destruct (decide (k = key)) as [->|Hne].
  - rewrite fmap_cons. cbn [snd default].
    destruct ((filter (λ t : list N * list N * list N, t.1 = key) ts).*2);
      [done|]. unfold id. by rewrite <- app_assoc.
  - done.
Qed.

Lemma transitions_append key word d :
  transitions (dict_append key word d) = S (transitions d).
Proof.
  unfold transitions. induction d as [|[k v] d IH]; simpl; [done|].
  destruct (decide (k = key)); simpl.
  - rewrite length_app. simpl. lia.
  - rewrite IH. lia.
Qed.

Lemma transitions_record_all d ts :
  transitions (record_all d ts) = (transitions d + length ts)%nat.
Proof.
  revert d. induction ts as [|[k word] ts IH]; intros d; simpl; [lia|].
  fold (record_all (dict_append k word d) ts).
  rewrite IH, transitions_append. lia.
Qed.

Lemma record_all_nil d ts : record_all d ts = [] ↔ d = [] ∧ ts = [].
Proof.
  split; [|by intros [-> ->]]. intros He.
  pose proof (transitions_record_all d ts) as Ht. rewrite He in Ht.
  destruct ts; [|simpl in Ht; lia]. by simpl in He.
Qed.

Section TableContents.
Context {U : Unicode}.

(** X5: the table [__init__] builds maps a pair of words to the words seen
    right after that pair in the corpus, in the order of the corpus and as
    often as they were seen; a pair never followed by a word is no key. *)
Theorem X5_table_holds_the_observed_successors :
  ∀ (corpus : str) (w0 : world) (key : bigram),
    dict_get key (chain (__init__from corpus w0).2) =
      match observed key (findall_words (lower corpus)) with
      | [] => None
      | followers => Some followers
      end.
Proof.
  intros corpus w0 key. rewrite init_record_all, dict_get_record_all.
  unfold observed.
  by destruct ((filter _ (triples (findall_words (lower corpus)))).*2).
Qed.

(** X6: the table holds one successor for every word of the corpus from the
    third on: no occurrence is dropped and none is merged with another. *)
Theorem X6_one_successor_for_each_triple :
  ∀ (corpus : str) (w0 : world),
    Z.of_nat (transitions (chain (__init__from corpus w0).2)) =
      Z.max 0 (len (findall_words (lower corpus)) - 2).
Proof.
  intros corpus w0. rewrite init_record_all, transitions_record_all.
  rewrite length_triples. unfold len. simpl. lia.
Qed.

(** X7: a corpus of fewer than three words leaves the table empty, and then
    every call of [generate] ends with the [IndexError] of the empty choice,
    untouched world; with three words or more no call ends so. *)
Theorem X7_short_corpus_cannot_generate :
  ∀ (corpus : str) (w0 : world) (prompt : str) (max_length : Z),
    let w := (__init__from corpus w0).2 in
    (chain w = [] ↔ len (findall_words (lower corpus)) < 3) ∧
    (generate prompt max_length w = (Raise empty_choice, w) ↔
     len (findall_words (lower corpus)) < 3).
Proof.
  intros corpus w0 prompt max_length w.
  assert (chain w = [] ↔ len (findall_words (lower corpus)) < 3) as Hempty.
  { unfold w. rewrite init_record_all, record_all_nil.
    pose proof (length_triples (findall_words (lower corpus))) as Hl.
    unfold len. split.
    - intros [_ Ht]. rewrite Ht in Hl. simpl in Hl. lia.
    - intros Hw. split; [done|].
      destruct (triples (findall_words (lower corpus))); [done|].
      simpl in Hl. lia. }
  split; [done|]. rewrite <- Hempty. split.
  - intros Hg. destruct (decide (chain w = [])) as [|Hne]; [done|].
    destruct (generate_words_run prompt max_length w Hne)
      as (ws & more & w' & _ & Hgw & Hl & _).
    rewrite (generate_run _ _ _ _ _ Hgw) in Hg; [done|].
    intros He. apply (f_equal len) in He. rewrite len_app in He.
    pose proof (len_nonneg more). change (len []) with 0 in He. lia.
  - intros He. unfold generate, generate_words.
    apply bind_raise, bind_raise, start_empty, He.
Qed.
End TableContents.

(** ** The starting state and the rounds of the loop *)

Section Rounds.
Context {U : Unicode}.

Lemma start_one_token first w :
  start [first] w =
    match filter (λ key : bigram, key.1 = first) (dict_keys (chain w)) with
    | [] => random_start w
    | c :: cs => (Ret [first; (drawn w (c :: cs) c).2], advance w)
    end.
Proof.
  unfold start. simpl.
  rewrite (bind_ret _ _ _ _ _ (item_single first w)).
  unfold mbind at 1, M_bind at 1, chain_keys.
  destruct (filter _ _) as [|c cs]; [done|].
  unfold mbind, M_bind. by rewrite choice_cons.
Qed.

Lemma start_no_token w : start [] w = random_start w.
Proof. reflexivity. Qed.

(** What one round does, by the successors of the last two words. *)
Lemma extend_last_two pre a b w :
  extend (pre ++ [a; b]) w =
    match dict_get (a, b) (chain w) with
    | Some (f :: fs) =>
        (Ret ((pre ++ [a; b]) ++ [drawn w (f :: fs) f]), advance w)
    | _ =>
        match random_key w with
        | Some seed => (Ret ((pre ++ [a; b]) ++ [seed.1; seed.2]), advance w)
        | None => (Raise empty_choice, w)
        end
    end.
Proof.
  unfold extend.
  rewrite (bind_ret _ _ _ _ _ (item_last_but_one pre a b w)).
  rewrite (bind_ret _ _ _ _ _ (item_last pre a b w)).
  unfold mbind at 1, M_bind at 1, chain_get.
  assert ((keys ← chain_keys; seed ← choice keys;
           mret ((pre ++ [a; b]) ++ [seed.1; seed.2])) w =
          match random_key w with
          | Some seed => (Ret ((pre ++ [a; b]) ++ [seed.1; seed.2]), advance w)
          | None => (Raise empty_choice, w)
          end) as Hdead.
  { unfold mbind, M_bind, chain_keys, random_key.
    by destruct (dict_keys (chain w)). }
  destruct (dict_get (a, b) (chain w)) as [[|f fs]|]; [exact Hdead| |exact Hdead].
  unfold mbind, M_bind. by rewrite choice_cons.
Qed.

Lemma extend_cases pre a b w :
  chain w ≠ [] →
  (∃ followers next,
     dict_get (a, b) (chain w) = Some followers ∧ next ∈ followers ∧
     extend (pre ++ [a; b]) w = (Ret ((pre ++ [a; b]) ++ [next]), advance w)) ∨
  ((dict_get (a, b) (chain w) = None ∨ dict_get (a, b) (chain w) = Some []) ∧
   ∃ seed : bigram,
     seed ∈ dict_keys (chain w) ∧
     extend (pre ++ [a; b]) w =
       (Ret ((pre ++ [a; b]) ++ [seed.1; seed.2]), advance w)).
Proof.
  intros Hne. rewrite extend_last_two.
  assert (∃ seed, random_key w = Some seed ∧ seed ∈ dict_keys (chain w))
    as (seed & Hk & Hin).
  { destruct (random_key w) as [seed|] eqn:Hk.
    - exists seed. split; [done|]. by apply random_key_elem.
    - unfold random_key, dict_keys in Hk. by destruct (chain w). }
  destruct (dict_get (a, b) (chain w)) as [[|f fs]|] eqn:Hg.
  - right. split; [by right|]. exists seed. by rewrite Hk.
  - left. exists (f :: fs), (drawn w (f :: fs) f). split; [done|]. split; [|done].
    apply list_elem_of_In, nth_In, Nat.mod_upper_bound. done.
  - right. split; [by left|]. exists seed. by rewrite Hk.
Qed.

Lemma while_grown fuel max_length opening ws w :
  2 ≤ len ws → chain w ≠ [] → max_length - len ws ≤ Z.of_nat fuel →
  grown (chain w) opening ws →
  ∃ ws' w',
    while fuel max_length ws w = (Ret ws', w') ∧ grown (chain w) opening ws'.
Proof.
  revert ws w. induction fuel as [|fuel IH]; intros ws w Hl Hne Hf Hgr; simpl.
  - destruct (len ws <? max_length) eqn:E; [lia|]. by exists ws, w.
  - destruct (len ws <? max_length) eqn:E; [|by exists ws, w].
    apply Z.ltb_lt in E.
    destruct (last_two_split ws Hl) as (pre & a & b & ->).
    destruct (extend_cases pre a b w Hne)
      as [(fs & x & Hg & Hx & Hrun)|[Hg (seed & Hs & Hrun)]];
      rewrite (bind_ret _ _ _ _ _ Hrun).
    + destruct (IH ((pre ++ [a; b]) ++ [x]) (advance w)) as (ws' & w' & Hw & Hgr');
        [rewrite len_app; change (len [x]) with 1; lia|done
        |rewrite len_app; change (len [x]) with 1; lia
        |by eapply grown_follow|].
      by exists ws', w'.
    + destruct (IH ((pre ++ [a; b]) ++ [seed.1; seed.2]) (advance w))
        as (ws' & w' & Hw & Hgr');
        [rewrite len_app; change (len [_; _]) with 2; lia|done
        |rewrite len_app; change (len [_; _]) with 2; lia
        |by eapply grown_restart|].
      by exists ws', w'.
Qed.

(** X8: a prompt of one token.  When keys of the table begin with the token,
    the words returned begin with the token and the second word of the
    one of these keys the random source picks; when none does, the token is
    dropped and they begin with the two words of a key picked among all. *)
Theorem X8_one_token_prompt :
  ∀ (prompt : str) (max_length : Z) (w : world) (first : str),
    findall_words (lower prompt) = [first] →
    chain w ≠ [] →
    ∃ (seed : bigram) rest w',
      generate_words prompt max_length w =
        (Ret ([seed.1; seed.2] ++ rest), w') ∧
      seed ∈ dict_keys (chain w) ∧
      match filter (λ key : bigram, key.1 = first) (dict_keys (chain w)) with
      | [] => random_key w = Some seed
      | c :: cs => seed = drawn w (c :: cs) c ∧ seed.1 = first
      end.
Proof.
  intros prompt max_length w first Hpw Hne.
  unfold generate_words. rewrite Hpw.
  assert (∃ seed : bigram,
            start [first] w = (Ret [seed.1; seed.2], advance w) ∧
            seed ∈ dict_keys (chain w) ∧
            match filter (λ key : bigram, key.1 = first) (dict_keys (chain w)) with
            | [] => random_key w = Some seed
            | c :: cs => seed = drawn w (c :: cs) c ∧ seed.1 = first
            end) as (seed & Hst & Hin & Hcase).
  { rewrite start_one_token.
    destruct (filter _ _) as [|c cs] eqn:Hf.
    - rewrite random_start_run.
      destruct (random_key w) as [seed|] eqn:Hk.
      + exists seed. split; [done|]. split; [by apply random_key_elem|done].
      + unfold random_key, dict_keys in Hk. by destruct (chain w).
    - assert (drawn w (c :: cs) c ∈ filter (λ key : bigram, key.1 = first)
                (dict_keys (chain w))) as [H1 H2]%list_elem_of_filter.
      { rewrite Hf. apply list_elem_of_In, nth_In, Nat.mod_upper_bound. done. }
      exists (drawn w (c :: cs) c). by rewrite H1. }
  rewrite (bind_ret _ _ _ _ _ Hst).
  destruct (while_run (Z.to_nat max_length) max_length [seed.1; seed.2] (advance w))
    as (rest & w' & Hw & _ & _); [done|done|change (len [_; _]) with 2; lia|].
  by exists seed, rest, w'.
Qed.

(** X9: a prompt without a token, the empty one or one of punctuation and
    spaces only: the words returned begin with the two words of the key the
    random source picks among all keys. *)
Theorem X9_prompt_without_words :
  ∀ (prompt : str) (max_length : Z) (w : world),
    findall_words (lower prompt) = [] →
    chain w ≠ [] →
    ∃ (seed : bigram) rest w',
      random_key w = Some seed ∧
      generate_words prompt max_length w =
        (Ret ([seed.1; seed.2] ++ rest), w') ∧
      generate prompt max_length w =
        (Ret (join (lit " ") (capitalized prompt ([seed.1; seed.2] ++ rest))), w').
Proof.
  intros prompt max_length w Hpw Hne.
  destruct (random_key w) as [seed|] eqn:Hk;
    [|unfold random_key, dict_keys in Hk; by destruct (chain w)].
  assert (start [] w = (Ret [seed.1; seed.2], advance w)) as Hst.
  { by rewrite start_no_token, random_start_run, Hk. }
  destruct (while_run (Z.to_nat max_length) max_length [seed.1; seed.2] (advance w))
    as (rest & w' & Hw & _ & _); [done|done|change (len [_; _]) with 2; lia|].
  assert (generate_words prompt max_length w =
            (Ret ([seed.1; seed.2] ++ rest), w')) as Hg.
  { unfold generate_words. rewrite Hpw. by rewrite (bind_ret _ _ _ _ _ Hst). }
  exists seed, rest, w'. split; [done|]. split; [done|].
  by apply generate_run.
Qed.

(** X10: the string returned has at most [max_length + 1] words, or as
    many as the prompt has tokens when this is more: but for a long prompt
    the length asked for is passed by one word at most.  The words of the
    string are those [split()] finds in it, and the words of the table are
    not empty and without whitespace, as in every table [__init__]
    builds. *)
Theorem X10_at_most_one_word_too_many `{!WordFacts} :
  ∀ (prompt : str) (max_length : Z) (w : world),
    chain w ≠ [] →
    table_all wordlike (chain w) →
    ∃ s w',
      generate prompt max_length w = (Ret s, w') ∧
      len (split_words s) ≤
        Z.max (Z.max 2 (len (findall_words (lower prompt)))) (max_length + 1).
Proof.
  intros prompt max_length w Hne Hd.
  destruct (generate_split prompt max_length w Hne Hd)
    as (ws & w' & Hg & Hrun & Hsplit & _).
  eexists _, w'. split; [exact Hrun|].
  rewrite Hsplit, len_capitalized. by eapply generate_words_at_most.
Qed.

(** X12: the words returned are made of the starting words by rounds of the
    loop alone: each round appends a successor the table holds for the
    last two words or, when it holds none, the two words of a key. *)
Theorem X12_words_grow_along_the_table :
  ∀ (prompt : str) (max_length : Z) (w : world),
    chain w ≠ [] →
    ∃ opening w1 ws w',
      start (findall_words (lower prompt)) w = (Ret opening, w1) ∧
      generate_words prompt max_length w = (Ret ws, w') ∧
      grown (chain w) opening ws.
Proof.
  intros prompt max_length w Hne. unfold generate_words.
  set (pw := findall_words (lower prompt)).
  pose proof (start_started w pw) as Hs.
  destruct (started_nonempty _ _ _ Hs Hne) as (opening & Hr & Hl).
  pose proof (started_chain _ _ _ Hs) as Hc.
  destruct (start pw w) as [o w1] eqn:Hst. simpl in *. subst o.
  destruct (while_grown (Z.to_nat max_length) max_length opening opening w1)
    as (ws & w' & Hw & Hgr); [done|by rewrite Hc|lia|constructor|].
  exists opening, w1, ws, w'. rewrite (bind_ret _ _ _ _ _ Hst).
  split; [done|]. split; [done|]. by rewrite <- Hc.
Qed.
End Rounds.

(** ** Tables without dead ends *)

Lemma closed_get d key followers :
  closed d → dict_get key d = Some followers →
  followers ≠ [] ∧ ∀ f, f ∈ followers → is_Some (dict_get (key.2, f) d).
Proof.
  unfold closed. rewrite Forall_forall. intros Hd Hin%dict_get_elem.
  destruct (Hd _ Hin) as [Hne Hall]. split; [done|].
  rewrite Forall_forall in Hall. exact Hall.
Qed.

Section Closed.
Context {U : Unicode}.

Lemma extend_closed pre a b w :
  closed (chain w) → is_Some (dict_get (a, b) (chain w)) →
  ∃ next,
    extend (pre ++ [a; b]) w = (Ret ((pre ++ [a]) ++ [b; next]), advance w) ∧
    is_Some (dict_get (b, next) (chain w)).
Proof.
  intros Hd [fs Hg]. rewrite extend_last_two, Hg.
  destruct (closed_get _ _ _ Hd Hg) as [Hne Hall].
  destruct fs as [|f fs]; [done|].
  exists (drawn w (f :: fs) f). split.
  - by rewrite <- !app_assoc.
  - apply (Hall (drawn w (f :: fs) f)).
    apply list_elem_of_In, nth_In, Nat.mod_upper_bound. done.
Qed.

Lemma while_closed fuel max_length pre a b w :
  closed (chain w) → is_Some (dict_get (a, b) (chain w)) →
  max_length - len (pre ++ [a; b]) ≤ Z.of_nat fuel →
  ∃ more w',
    while fuel max_length (pre ++ [a; b]) w = (Ret ((pre ++ [a; b]) ++ more), w') ∧
    len ((pre ++ [a; b]) ++ more) = Z.max (len (pre ++ [a; b])) max_length.
Proof.
  revert pre a b w. induction fuel as [|fuel IH]; intros pre a b w Hd Hk Hf;
    cbn [while].
  - destruct (len (pre ++ [a; b]) <? max_length) eqn:E; [lia|].
    exists [], w. rewrite app_nil_r. split; [done|]. lia.
  - destruct (len (pre ++ [a; b]) <? max_length) eqn:E.
    + apply Z.ltb_lt in E.
      destruct (extend_closed pre a b w Hd Hk) as (next & Hrun & Hk').
      rewrite (bind_ret _ _ _ _ _ Hrun).
      destruct (IH (pre ++ [a]) b next (advance w)) as (more & w' & Hw & Hl);
        [done|done|rewrite !len_app in *; change (len [b; next]) with 2;
          change (len [a; b]) with 2 in *; change (len [a]) with 1; lia|].
      exists (next :: more), w'. split.
      * rewrite Hw. by rewrite <- !app_assoc.
      * replace ((pre ++ [a; b]) ++ next :: more)
          with (((pre ++ [a]) ++ [b; next]) ++ more) by (by rewrite <- !app_assoc).
        rewrite Hl. rewrite !len_app in *. change (len [b; next]) with 2.
        change (len [a; b]) with 2 in *. change (len [a]) with 1. lia.
    + exists [], w. rewrite app_nil_r. split; [done|]. lia.
Qed.

(** X13: with a table without dead ends the loop stops at the length asked
    for: the words returned are [max_length], or the starting words when
    these are more; so a prompt of at most [max_length] tokens is answered
    with exactly [max_length] words, for [max_length] of 2 or more. *)
Theorem X13_exact_length_without_dead_ends :
  ∀ (prompt : str) (max_length : Z) (w : world),
    closed (chain w) → chain w ≠ [] →
    ∃ opening w1 more w',
      start (findall_words (lower prompt)) w = (Ret opening, w1) ∧
      generate_words prompt max_length w = (Ret (opening ++ more), w') ∧
      len (opening ++ more) = Z.max (len opening) max_length ∧
      (2 ≤ max_length → len (findall_words (lower prompt)) ≤ max_length →
       len (opening ++ more) = max_length).
Proof.
  intros prompt max_length w Hd Hne. unfold generate_words.
  set (pw := findall_words (lower prompt)).
  assert (∃ pre a b w1,
            start pw w = (Ret (pre ++ [a; b]), w1) ∧ chain w1 = chain w ∧
            is_Some (dict_get (a, b) (chain w)) ∧
            len (pre ++ [a; b]) ≤ Z.max 2 (len pw))
    as (pre & a & b & w1 & Hst & Hc & Hk & Hlo).
  { destruct (start_started w pw) as [pre a b Hpw Hk|first seed Hpw Hin H1|seed Hk|He].
    - exists pre, a, b, w. rewrite <- Hpw. repeat split; [done|lia].
    - exists [], first, seed.2, (advance w). repeat split.
      + apply dict_get_keys. destruct seed as [s1 s2]. simpl in *. by subst.
      + change (len ([] ++ [first; seed.2])) with 2. lia.
    - exists [], seed.1, seed.2, (advance w). repeat split.
      + apply dict_get_keys. apply random_key_elem in Hk. by destruct seed.
      + change (len ([] ++ [seed.1; seed.2])) with 2. lia.
    - done. }
  rewrite (bind_ret _ _ _ _ _ Hst).
  destruct (while_closed (Z.to_nat max_length) max_length pre a b w1)
    as (more & w' & Hw & Hl); [by rewrite Hc|by rewrite Hc| |].
  { pose proof (len_nonneg (pre ++ [a; b])). lia. }
  exists (pre ++ [a; b]), w1, more, w'. repeat split; [done..|].
  intros H2 Hpw. rewrite Hl. lia.
Qed.

(** X11: [generate] invents no word: with the table of a corpus, every word
    of the list it builds is a token of the prompt or a token of the
    corpus. *)
Theorem X11_words_come_from_prompt_or_corpus :
  ∀ (corpus : str) (w0 : world) (prompt : str) (max_length : Z),
    let w := (__init__from corpus w0).2 in
    chain w ≠ [] →
    ∃ ws w',
      generate_words prompt max_length w = (Ret ws, w') ∧
      Forall (λ x, x ∈ findall_words (lower prompt) ∨
                   x ∈ findall_words (lower corpus)) ws.
Proof.
  intros corpus w0 prompt max_length w Hne.
  destruct (generate_words_run prompt max_length w Hne)
    as (ws & more & w' & _ & Hg & _).
  exists (ws ++ more), w'. split; [done|].
  eapply generate_words_keeps; [| |exact Hg].
  - apply init_table_all, Forall_forall. by right.
  - apply Forall_forall. by left.
Qed.
End Closed.

(** The table of the corpus has no dead end. *)
Lemma text_generator_closed : closed text_generator.
Proof. refine (bool_decide_unpack _ _). by vm_compute. Qed.

Lemma X8_witness :
  ∃ (seed : bigram) rest w',
    generate_words (U := ascii_tables) (lit "Alice") 6 loaded =
      (Ret ([seed.1; seed.2] ++ rest), w') ∧
    seed ∈ dict_keys (chain loaded) ∧
    match filter (λ key : bigram, key.1 = lit "alice") (dict_keys (chain loaded)) with
    | [] => random_key loaded = Some seed
    | c :: cs => seed = drawn loaded (c :: cs) c ∧ seed.1 = lit "alice"
    end.
Proof.
  apply (X8_one_token_prompt (U := ascii_tables) (lit "Alice") 6 loaded (lit "alice")).
  - vm_compute. reflexivity.
  - vm_compute. discriminate.
Defined.

Lemma X9_witness :
  ∃ (seed : bigram) rest w',
    random_key loaded = Some seed ∧
    generate_words (U := ascii_tables) (lit "?!") 6 loaded =
      (Ret ([seed.1; seed.2] ++ rest), w') ∧
    generate (U := ascii_tables) (lit "?!") 6 loaded =
      (Ret (join (lit " ") (capitalized (lit "?!") ([seed.1; seed.2] ++ rest))), w').
Proof.
  apply (X9_prompt_without_words (U := ascii_tables) (lit "?!") 6 loaded).
  - vm_compute. reflexivity.
  - vm_compute. discriminate.
Defined.

Lemma X10_witness :
  ∃ s w',
    generate (U := ascii_tables) (lit "Once upon a") 5 loaded = (Ret s, w') ∧
    len (split_words (U := ascii_tables) s) ≤
      Z.max (Z.max 2 (len (findall_words (U := ascii_tables)
                             (@lower ascii_tables (lit "Once upon a"))))) (5 + 1).
Proof.
  apply (X10_at_most_one_word_too_many (U := ascii_tables) (lit "Once upon a") 5 loaded).
  - vm_compute. discriminate.
  - exact text_generator_wordlike.
Defined.

Lemma X11_witness :
  ∃ ws w',
    generate_words (U := ascii_tables) (lit "Once upon a") 5
      (__init__ (U := ascii_tables) loaded).2 = (Ret ws, w') ∧
    Forall (λ x, x ∈ findall_words (U := ascii_tables)
                       (@lower ascii_tables (lit "Once upon a")) ∨
                 x ∈ findall_words (U := ascii_tables)
                       (@lower ascii_tables _load_corpus)) ws.
Proof.
  apply (X11_words_come_from_prompt_or_corpus (U := ascii_tables)
           _load_corpus loaded (lit "Once upon a") 5).
  vm_compute. discriminate.
Defined.

Lemma X12_witness :
  ∃ opening w1 ws w',
    start
      (findall_words (U := ascii_tables) (@lower ascii_tables (lit "Once upon a")))
      loaded = (Ret opening, w1) ∧
    generate_words (U := ascii_tables) (lit "Once upon a") 5 loaded = (Ret ws, w') ∧
    grown (chain loaded) opening ws.
Proof.
  apply (X12_words_grow_along_the_table (U := ascii_tables) (lit "Once upon a") 5 loaded).
  vm_compute. discriminate.
Defined.

Lemma X13_witness :
  ∃ opening w1 more w',
    start
      (findall_words (U := ascii_tables) (@lower ascii_tables (lit "Once upon a")))
      loaded = (Ret opening, w1) ∧
    generate_words (U := ascii_tables) (lit "Once upon a") 5 loaded =
      (Ret (opening ++ more), w') ∧
    len (opening ++ more) = Z.max (len opening) 5 ∧
    (2 ≤ 5 →
     len (findall_words (U := ascii_tables) (@lower ascii_tables (lit "Once upon a"))) ≤ 5 →
     len (opening ++ more) = 5).
Proof.
  apply (X13_exact_length_without_dead_ends (U := ascii_tables)
           (lit "Once upon a") 5 loaded).
  - exact text_generator_closed.
  - vm_compute. discriminate.
Defined.

(** ** The pieces of a split *)

Section Pieces.
Context {U : Unicode}.

Lemma split_go_cons_head prev insep s :
  ∃ p ps, split_go prev insep s = p :: ps.
Proof.
  pose proof (length_split_go_pos prev insep s) as Hl.
  destruct (split_go prev insep s) as [|p ps]; [simpl in Hl; lia|]. by eexists _, _.
Qed.

(** The separators that were cut put the pieces together again. *)
Lemma split_go_interleave prev insep s :
  ∃ ws0 seps,
    s = ws0 ++ interleave (split_go prev insep s) seps ∧
    Forall (λ c, isspace c = true) ws0 ∧
    (insep = false → ws0 = []) ∧
    S (length seps) = length (split_go prev insep s) ∧
    Forall (λ sep, sep ≠ [] ∧ Forall (λ c, isspace c = true) sep) seps.
Proof.
  revert prev insep. induction s as [|c s IH]; intros prev insep.
  { exists [], []. by repeat split. }
  cbn [split_go]. destruct (isspace c) eqn:Hc; cbn [andb].
  - destruct insep.
    + destruct (IH (Some c) true) as (ws0 & seps & Hs & Hws & _ & Hl & Hseps).
      exists (c :: ws0), seps. repeat split; [|by constructor|done..].
      simpl. by rewrite <- Hs.
    + destruct (from_option is_terminator false prev).
      * destruct (IH (Some c) true) as (ws0 & seps & Hs & Hws & _ & Hl & Hseps).
        destruct (split_go_cons_head (Some c) true s) as (p & ps & Hp).
        exists [], ((c :: ws0) :: seps). rewrite Hp in *.
        repeat split; [|done..|simpl in *; lia|].
        -- by rewrite Hs at 1.
        -- constructor; [|done]. split; [done|]. by constructor.
      * destruct (IH (Some c) false) as (ws0 & seps & Hs & _ & Hw0 & Hl & Hseps).
        rewrite (Hw0 eq_refl) in Hs. simpl in Hs.
        destruct (split_go_cons_head (Some c) false s) as (p & ps & Hp).
        exists [], seps. rewrite Hp in *. cbn [cons_head].
        repeat split; [|done..]. rewrite Hs at 1. by destruct seps.
  - destruct (IH (Some c) false) as (ws0 & seps & Hs & _ & Hw0 & Hl & Hseps).
    rewrite (Hw0 eq_refl) in Hs. simpl in Hs.
    destruct (split_go_cons_head (Some c) false s) as (p & ps & Hp).
    exists [], seps. rewrite Hp in *. cbn [cons_head].
    repeat split; [|done..]. rewrite Hs at 1. by destruct seps.
Qed.

(** No piece has a boundary inside. *)
Lemma split_go_no_boundary_inside prev insep s :
  Forall (λ p, has_boundary p = false) (split_go prev insep s) ∧
  (insep = false → ∀ x p ps,
     split_go prev insep s = (x :: p) :: ps →
     from_option is_terminator false prev && isspace x = false).
Proof.
  revert prev insep. induction s as [|c s IH]; intros prev insep.
  { split; [by repeat constructor|]. intros _ x p ps [=]. }
  cbn [split_go]. destruct (isspace c) eqn:Hc; cbn [andb].
  - destruct insep.
    + destruct (IH (Some c) true) as [Hall _]. split; [done|]. intros [=].
    + destruct (from_option is_terminator false prev) eqn:Hp.
      * destruct (IH (Some c) true) as [Hall _].
        split; [by constructor|]. intros _ x p ps [=].
      * destruct (IH (Some c) false) as [Hall Hhead].
        destruct (split_go_cons_head (Some c) false s) as (q & qs & Hq).
        rewrite Hq in *. cbn [cons_head].
        apply Forall_cons in Hall as [Hq0 Hqs]. split.
        -- constructor; [|done]. destruct q as [|x q]; [done|].
           change (has_boundary (c :: x :: q))
             with ((is_terminator c && isspace x) || has_boundary (x :: q)).
           rewrite Hq0, orb_false_r.
           apply (Hhead eq_refl x q qs eq_refl).
        -- intros _ x p ps [= <- _ _]. done.
  - destruct (IH (Some c) false) as [Hall Hhead].
    destruct (split_go_cons_head (Some c) false s) as (q & qs & Hq).
    rewrite Hq in *. cbn [cons_head].
    apply Forall_cons in Hall as [Hq0 Hqs]. split.
    + constructor; [|done]. destruct q as [|x q]; [done|].
      change (has_boundary (c :: x :: q))
        with ((is_terminator c && isspace x) || has_boundary (x :: q)).
      rewrite Hq0, orb_false_r.
      apply (Hhead eq_refl x q qs eq_refl).
    + intros _ x p ps [= <- _ _]. by rewrite Hc, andb_false_r.
Qed.
End Pieces.

(** ** The shape of the sentences *)

Lemma all_but_last_lookup {A} (Q : A → Prop) (l : list A) i x :
  all_but_last Q l → l !! i = Some x → (S i < length l)%nat → Q x.
Proof.
  revert i. induction l as [|y l IH]; intros i Hall Hi Hlt; [done|].
  destruct l as [|z l]; [simpl in Hlt; lia|]. destruct Hall as [Hy Hall].
  destruct i as [|i]; [by injection Hi as <-|].
  apply (IH i); [done|done|simpl in *; lia].
Qed.

Lemma terminated_app q p : p ≠ [] → terminated (q ++ p) ↔ terminated p.
Proof.
  intros Hp. unfold terminated. rewrite last_app.
  destruct (last p) eqn:Hl; [done|]. by apply last_None in Hl.
Qed.

Section SentenceShape.
Context {U : Unicode} {F : UnicodeFacts}.

Lemma terminated_not_space c p : isspace c = true → terminated ([c] ++ p) → p ≠ [].
Proof.
  intros Hc Ht ->. unfold terminated in Ht. simpl in Ht.
  apply isspace_terminator in Ht. congruence.
Qed.

(** Every piece that a separator closes ends with one of [.!?]. *)
Lemma split_go_terminated prev insep s p0 rest :
  split_go prev insep s = p0 :: rest →
  all_but_last terminated rest ∧
  (rest ≠ [] → terminated (option_list prev ++ p0)).
Proof.
  revert prev insep p0 rest. induction s as [|c s IH]; intros prev insep p0 rest.
  { intros [= <- <-]. done. }
  cbn [split_go]. destruct (isspace c) eqn:Hc; cbn [andb].
  - destruct insep.
    + intros Hs. destruct (IH _ _ _ _ Hs) as [Hall Hp0]. split; [done|].
      intros Hr. specialize (Hp0 Hr).
      pose proof (terminated_not_space c p0 Hc Hp0) as Hne.
      apply terminated_app; [done|]. by eapply (terminated_app [c]).
    + destruct (from_option is_terminator false prev) eqn:Hp.
      * intros [= <- <-].
        destruct (split_go_cons_head (Some c) true s) as (r0 & R & Hs).
        rewrite Hs. destruct (IH _ _ _ _ Hs) as [Hall Hr0]. split.
        -- destruct R as [|r1 R]; [done|]. split; [|done].
           specialize (Hr0 ltac:(done)).
           pose proof (terminated_not_space c r0 Hc Hr0) as Hne.
           by eapply (terminated_app [c]).
        -- intros _. rewrite app_nil_r. destruct prev as [p|]; [|done]. exact Hp.
      * intros Hs.
        destruct (split_go_cons_head (Some c) false s) as (r0 & R & Hr).
        rewrite Hr in Hs. injection Hs as <- <-.
        destruct (IH _ _ _ _ Hr) as [Hall Hr0]. split; [done|].
        intros Hne. apply terminated_app; [done|]. by apply Hr0.
  - intros Hs.
    destruct (split_go_cons_head (Some c) false s) as (r0 & R & Hr).
    rewrite Hr in Hs. injection Hs as <- <-.
    destruct (IH _ _ _ _ Hr) as [Hall Hr0]. split; [done|].
    intros Hne. apply terminated_app; [done|]. by apply Hr0.
Qed.

(** The sentences of a text that is not blank are the pieces of the split:
    none of them is empty, so none is dropped. *)
Lemma tokenize_sentences_pieces text :
  strip text ≠ [] → _tokenize_sentences text = split_sentences (strip text).
Proof.
  intros Hne. unfold _tokenize_sentences, split_sentences.
  destruct (strip_trimmed text) as [Hhead Hlast].
  destruct (split_go_pieces None false (strip text)) as [_ Hall]; [done..|].
  apply filter_all, Hall. simpl. by rewrite andb_false_r.
Qed.

Lemma tokenize_sentences_blank text :
  strip text = [] → _tokenize_sentences text = [].
Proof. intros He. unfold _tokenize_sentences. by rewrite He. Qed.

(** X15: no sentence is empty and no sentence has a boundary inside: a
    sentence is never cut short of the next separator, and never holds
    two. *)
Theorem X15_sentences_are_whole :
  ∀ (text s : str),
    s ∈ _tokenize_sentences text → s ≠ [] ∧ has_boundary s = false.
Proof.
  intros text s [Hne Hin]%list_elem_of_filter. split; [done|].
  destruct (split_go_no_boundary_inside None false (strip text)) as [Hall _].
  rewrite Forall_forall in Hall. by apply Hall.
Qed.

(** X16: every sentence but the last ends with [.], [!] or [?]. *)
Theorem X16_sentences_end_with_a_terminator :
  ∀ (text s : str) (i : nat),
    _tokenize_sentences text !! i = Some s →
    (S i < length (_tokenize_sentences text))%nat →
    ∃ c, last s = Some c ∧ is_terminator c = true.
Proof.
  intros text s i Hi Hlt.
  destruct (decide (strip text = [])) as [He|Hne].
  { by rewrite tokenize_sentences_blank in Hi. }
  rewrite tokenize_sentences_pieces in Hi, Hlt by done.
  destruct (split_go_cons_head None false (strip text)) as (p0 & rest & Hs).
  unfold split_sentences in *. rewrite Hs in Hi, Hlt.
  destruct (split_go_terminated _ _ _ _ _ Hs) as [Hall Hp0].
  assert (terminated s) as Ht.
  { destruct i as [|i].
    - injection Hi as <-. simpl in Hp0. apply Hp0.
      destruct rest; [simpl in Hlt; lia|done].
    - apply (all_but_last_lookup _ rest i); [done|done|simpl in Hlt; lia]. }
  unfold terminated in Ht. destruct (last s) as [c|]; [|done]. by exists c.
Qed.

(** X17: the sentences with the whitespace that was cut between them are
    the text without the whitespace around it: nothing else is lost and
    the order is kept. *)
Theorem X17_sentences_and_separators_make_the_text :
  ∀ text : str,
    ∃ seps : list str,
      strip text = interleave (_tokenize_sentences text) seps ∧
      length seps = (length (_tokenize_sentences text) - 1)%nat ∧
      Forall (λ sep, sep ≠ [] ∧ Forall (λ c, isspace c = true) sep) seps.
Proof.
  intros text. destruct (decide (strip text = [])) as [He|Hne].
  { exists []. by rewrite tokenize_sentences_blank, He. }
  rewrite tokenize_sentences_pieces by done. unfold split_sentences.
  destruct (split_go_interleave None false (strip text))
    as (ws0 & seps & Hs & _ & Hw0 & Hl & Hseps).
  rewrite (Hw0 eq_refl) in Hs. exists seps. split; [done|]. split; [lia|done].
Qed.
End SentenceShape.

Lemma X14_witness :
  len (_tokenize_sentences (U := ascii_tables) (lit " Hi there!  How are you? Fine.")) =
    sentence_count (U := ascii_tables) (lit " Hi there!  How are you? Fine.").
Proof. apply (tokenize_sentences_count (U := ascii_tables)). Defined.

Lemma X15_witness :
  lit "How are you?" ≠ [] ∧ has_boundary (U := ascii_tables) (lit "How are you?") = false.
Proof.
  apply (X15_sentences_are_whole (U := ascii_tables) (lit " Hi there!  How are you? Fine.")).
  vm_compute. right. left.
Defined.

Lemma X16_witness : ∃ c, last (lit "How are you?") = Some c ∧ is_terminator c = true.
Proof.
  apply (X16_sentences_end_with_a_terminator (U := ascii_tables)
           (lit " Hi there!  How are you? Fine.") (lit "How are you?") 1).
  - vm_compute. reflexivity.
  - vm_compute. lia.
Defined.

Lemma X17_witness :
  ∃ seps : list str,
    strip (U := ascii_tables) (lit " Hi there!  How are you? Fine.") =
      interleave (_tokenize_sentences (U := ascii_tables)
                    (lit " Hi there!  How are you? Fine.")) seps ∧
    length seps =
      (length (_tokenize_sentences (U := ascii_tables)
                 (lit " Hi there!  How are you? Fine.")) - 1)%nat ∧
    Forall (λ sep, sep ≠ [] ∧ Forall (λ c, isspace c = true) sep) seps.
Proof.
  apply (X17_sentences_and_separators_make_the_text (U := ascii_tables)).
Defined.

(** ** Lengths and boundaries of a join *)

Lemma length_slice_to {A} (n : Z) (l : list A) :
  length (slice_to n l) = slice_length n (length l).
Proof.
  unfold slice_to, slice_length.
  destruct (Z.leb_spec 0 n); rewrite length_take; lia.
Qed.

Lemma slice_to_take_some {A} (n : Z) (l : list A) : ∃ m, slice_to n l = take m l.
Proof. unfold slice_to. destruct (0 <=? n); by eexists. Qed.

Lemma ascending_sublist {A} (l : list A) (chosen : list (nat * A)) (k : nat) :
  StronglySorted (λ a b, (a.1 < b.1)%nat) chosen →
  (∀ i x, (i, x) ∈ chosen → (k ≤ i)%nat ∧ l !! i = Some x) →
  chosen.*2 `sublist_of` drop k l.
Proof.
  revert k. induction chosen as [|[i x] chosen IH]; intros k Hs Hin.
  { apply sublist_nil_l. }
  apply StronglySorted_cons in Hs as [Hall Hs].
  destruct (Hin i x ltac:(left)) as [Hk Hi].
  rewrite <- (take_drop (i - k) (drop k l)), drop_drop.
  replace (k + (i - k))%nat with i by lia.
  rewrite (drop_S _ _ _ Hi), fmap_cons.
  apply sublist_inserts_l, sublist_skip, IH; [done|].
  intros j y Hj. rewrite Forall_forall in Hall.
  specialize (Hall _ Hj). simpl in Hall. split; [lia|].
  apply Hin. by right.
Qed.

Lemma length_join (l : list str) :
  l ≠ [] → S (length (join (lit " ") l)) = joined_length l.
Proof.
  induction l as [|p l IH]; [done|]. intros _.
  destruct l as [|q l]; [unfold joined_length; simpl; lia|].
  specialize (IH ltac:(done)).
  change (join (lit " ") (p :: q :: l)) with (p ++ 32%N :: join (lit " ") (q :: l)).
  rewrite length_app. cbn [length].
  change (joined_length (p :: q :: l)) with (S (length p) + joined_length (q :: l))%nat.
  lia.
Qed.

Lemma joined_length_sublist (l1 l2 : list str) :
  l1 `sublist_of` l2 → (joined_length l1 ≤ joined_length l2)%nat.
Proof. unfold joined_length. induction 1; simpl; lia. Qed.

Lemma joined_length_interleave (pieces seps : list str) :
  S (length seps) = length pieces →
  Forall (λ sep, sep ≠ []) seps →
  (joined_length pieces ≤ S (length (interleave pieces seps)))%nat.
Proof.
  revert seps. induction pieces as [|p pieces IH]; intros seps Hl Hseps; [done|].
  destruct seps as [|sep seps].
  { destruct pieces; [|done]. unfold joined_length. simpl. lia. }
  apply Forall_cons in Hseps as [Hsep Hseps].
  injection Hl as Hl. specialize (IH seps Hl Hseps).
  cbn [interleave]. rewrite !length_app.
  change (joined_length (p :: pieces)) with (S (length p) + joined_length pieces)%nat.
  destruct sep; [done|]. simpl length. lia.
Qed.

Section Boundaries.
Context {U : Unicode}.

Lemma boundaries_cons_le c s : (boundaries s ≤ boundaries (c :: s))%nat.
Proof. destruct s; simpl; lia. Qed.

Lemma boundaries_cons_ge c s : (boundaries (c :: s) ≤ 1 + boundaries s)%nat.
Proof. destruct s as [|b s]; [simpl; lia|]. simpl. destruct (_ && _); lia. Qed.

Lemma boundaries_app_r k s : (boundaries s ≤ boundaries (k ++ s))%nat.
Proof.
  induction k as [|c k IH]; [done|].
  etrans; [exact IH|]. apply boundaries_cons_le.
Qed.

Lemma boundaries_app_l s k : (boundaries s ≤ boundaries (s ++ k))%nat.
Proof.
  induction s as [|a s IH]; [simpl; lia|]. destruct s as [|b s]; [simpl; lia|].
  change (boundaries ((a :: b :: s) ++ k))
    with ((if is_terminator a && isspace b then 1 else 0)
          + boundaries ((b :: s) ++ k))%nat.
  change (boundaries (a :: b :: s))
    with ((if is_terminator a && isspace b then 1 else 0) + boundaries (b :: s))%nat.
  lia.
Qed.

Lemma boundaries_app_le x y :
  (boundaries (x ++ y) ≤ boundaries x + 1 + boundaries y)%nat.
Proof.
  induction x as [|a x IH]; [simpl; lia|]. destruct x as [|b x].
  { pose proof (boundaries_cons_ge a y). simpl in *. lia. }
  change (boundaries ((a :: b :: x) ++ y))
    with ((if is_terminator a && isspace b then 1 else 0)
          + boundaries ((b :: x) ++ y))%nat.
  change (boundaries (a :: b :: x))
    with ((if is_terminator a && isspace b then 1 else 0) + boundaries (b :: x))%nat.
  lia.
Qed.

Lemma boundaries_space s : boundaries (32%N :: s) = boundaries s.
Proof. by destruct s. Qed.

Lemma boundaries_zero s : has_boundary s = false → boundaries s = O.
Proof.
  induction s as [|a s IH]; [done|]. destruct s as [|b s]; [done|].
  change (has_boundary (a :: b :: s))
    with ((is_terminator a && isspace b) || has_boundary (b :: s)).
  intros [H1 H2]%orb_false_iff.
  change (boundaries (a :: b :: s))
    with ((if is_terminator a && isspace b then 1 else 0) + boundaries (b :: s))%nat.
  rewrite H1, IH by done. done.
Qed.

(** A join with single spaces has a boundary only where two elements
    meet. *)
Lemma boundaries_join (l : list str) :
  Forall (λ p, has_boundary p = false) l →
  (boundaries (join (lit " ") l) ≤ length l - 1)%nat.
Proof.
  induction 1 as [|p l Hp Hl IH]; [done|].
  destruct l as [|q l]; [simpl; by rewrite boundaries_zero|].
  change (join (lit " ") (p :: q :: l)) with (p ++ 32%N :: join (lit " ") (q :: l)).
  pose proof (boundaries_app_le p (32%N :: join (lit " ") (q :: l))) as Hle.
  rewrite boundaries_space, (boundaries_zero p Hp) in Hle.
  simpl length in *. lia.
Qed.

Lemma boundaries_strip s : (boundaries (strip s) ≤ boundaries s)%nat.
Proof.
  destruct (strip_infix s) as (k1 & k2 & Hs). rewrite Hs at 2.
  etrans; [apply (boundaries_app_l _ k2)|]. apply boundaries_app_r.
Qed.
End Boundaries.

(** ** What a summary is made of *)

Lemma StronglySorted_lookup_2 {A} (R : relation A) (l : list A) :
  (∀ i j x y, (i < j)%nat → l !! i = Some x → l !! j = Some y → R x y) →
  StronglySorted R l.
Proof.
  induction l as [|a l IH]; intros H; constructor.
  - apply IH. intros i j x y Hij Hi Hj. apply (H (S i) (S j)); [lia|done..].
  - apply Forall_lookup. intros j y Hj. apply (H O (S j)); [lia|done..].
Qed.

Lemma sorted_id {A K} (lt : K → K → bool) (key : A → K) (l : list A) :
  StronglySorted (key_le lt key) l → sorted lt key l = l.
Proof.
  induction 1 as [|x l Hl IH Hx]; [done|].
  cbn [sorted foldr]. fold (sorted lt key l). rewrite IH.
  destruct l as [|y l]; [done|]. apply Forall_cons in Hx as [Hy _].
  unfold key_le in Hy. simpl. by rewrite Hy.
Qed.

Section SummaryFacts.
Context {U : Unicode}.
Variable stopwords : gset str.

Lemma sentence_no_boundary text s :
  s ∈ _tokenize_sentences text → s ≠ [] ∧ has_boundary s = false.
Proof.
  intros [Hne Hin]%list_elem_of_filter. split; [done|].
  destruct (split_go_no_boundary_inside None false (strip text)) as [Hall _].
  rewrite Forall_forall in Hall. by apply Hall.
Qed.

(** The sentences of a summary are sentences of the text, in the order of
    the text. *)
Lemma summarize_sublist text n :
  ¬ len (_tokenize_sentences text) ≤ n →
  ∃ chosen : list str,
    summarize stopwords text n = join (lit " ") chosen ∧
    chosen `sublist_of` _tokenize_sentences text ∧
    length chosen = slice_length n (length (_tokenize_sentences text)).
Proof.
  intros Hn. unfold summarize.
  set (sentences := _tokenize_sentences text) in *.
  destruct (len sentences <=? n) eqn:E; [lia|]. clear E.
  set (L := score_sentences stopwords sentences).
  set (key1 := λ x : Z * Z * str, (- x.1.1, x.1.2)).
  set (idx := λ x : Z * Z * str, x.1.2).
  set (L1 := sorted pair_lt key1 L).
  set (top := slice_to n L1).
  set (L2 := sorted Z.ltb idx top).
  set (pick := λ x : Z * Z * str, (Z.to_nat x.1.2, x.2)).
  assert (L1 ≡ₚ L) as HL1 by apply sorted_Permutation.
  assert (L2 ≡ₚ top) as HL2 by apply sorted_Permutation.
  destruct (slice_to_take_some n L1) as [m Hm]. fold top in Hm.
  assert (∀ e, e ∈ L2 → e ∈ L) as Hsub.
  { intros e He. rewrite HL2, Hm in He. rewrite <- HL1.
    eapply elem_of_sublist; [done|apply sublist_take]. }
  assert (∀ e, e ∈ L →
            ∃ i s, sentences !! i = Some s ∧
                   e = (sentence_score stopwords sentences s, Z.of_nat i, s)) as HL.
  { intros e He. by apply elem_of_score_sentences in He. }
  exists ((λ x : Z * Z * str, x.2) <$> L2). split; [done|]. split.
  - replace ((λ x : Z * Z * str, x.2) <$> L2) with ((pick <$> L2).*2)
      by (by rewrite <- list_fmap_compose).
    rewrite <- (drop_0 sentences). apply ascending_sublist.
    + apply ascending_positions.
      * apply sorted_StronglySorted; [apply Z_ltb_asym|apply Z_leb_trans].
      * rewrite HL2, Hm, fmap_take.
        eapply sublist_NoDup; [|apply sublist_take].
        rewrite HL1. apply score_sentences_NoDup.
      * apply Forall_forall. intros e He.
        destruct (HL e (Hsub e He)) as (i0 & s0 & _ & ->). simpl. lia.
    + intros i s (e & He & Hin)%list_elem_of_fmap.
      destruct (HL e (Hsub e Hin)) as (i0 & s0 & Hs0 & ->).
      unfold pick in He. simpl in He. injection He as -> ->.
      rewrite Nat2Z.id. split; [lia|done].
  - rewrite length_fmap. unfold L2. rewrite length_sorted. unfold top.
    rewrite length_slice_to. unfold L1. rewrite length_sorted. unfold L.
    by rewrite length_score_sentences.
Qed.

Lemma summarize_early text n :
  len (_tokenize_sentences text) ≤ n → summarize stopwords text n = text.
Proof.
  intros Hl. unfold summarize.
  destruct (len (_tokenize_sentences text) <=? n) eqn:E; [done|lia].
Qed.

(** X19: a summary is never longer than the text, whatever
    [max_sentences] is. *)
Theorem X19_summary_is_no_longer_than_the_text :
  ∀ (text : str) (max_sentences : Z),
    (length (summarize stopwords text max_sentences) ≤ length text)%nat.
Proof.
  intros text n.
  destruct (decide (len (_tokenize_sentences text) ≤ n)) as [Hl|Hl].
  { by rewrite summarize_early. }
  destruct (summarize_sublist text n Hl) as (chosen & -> & Hsub & _).
  destruct (decide (chosen = [])) as [->|Hne]; [simpl; lia|].
  pose proof (length_join chosen Hne) as Hj.
  pose proof (joined_length_sublist _ _ Hsub) as Hs.
  assert (joined_length (_tokenize_sentences text)
          ≤ joined_length (split_sentences (strip text)))%nat as Hf.
  { apply joined_length_sublist, sublist_filter. }
  destruct (split_go_interleave None false (strip text))
    as (ws0 & seps & Hst & _ & Hw0 & Hlen & Hseps).
  rewrite (Hw0 eq_refl) in Hst. simpl in Hst.
  pose proof (joined_length_interleave _ seps Hlen) as Hi.
  rewrite <- Hst in Hi.
  assert (length (strip text) ≤ length text)%nat as Hstrip.
  { destruct (strip_infix text) as (k1 & k2 & Hk). rewrite Hk at 2.
    rewrite !length_app. lia. }
  unfold split_sentences in Hf.
  assert (Forall (λ sep : list N, sep ≠ []) seps) as Hseps'.
  { eapply Forall_impl; [exact Hseps|]. by intros sep [? _]. }
  specialize (Hi Hseps'). lia.
Qed.

(** X20: for [max_sentences] of 1 or more, the summary of a text that is
    not blank is not empty. *)
Theorem X20_summary_is_not_empty :
  ∀ (text : str) (max_sentences : Z),
    1 ≤ max_sentences → strip text ≠ [] →
    summarize stopwords text max_sentences ≠ [].
Proof.
  intros text n Hn Hne.
  destruct (decide (len (_tokenize_sentences text) ≤ n)) as [Hl|Hl].
  { rewrite summarize_early by done. intros ->. by apply Hne. }
  destruct (summarize_sublist text n Hl) as (chosen & -> & Hsub & Hlen).
  unfold slice_length in Hlen. destruct (Z.leb_spec 0 n); [|lia].
  destruct chosen as [|s chosen]; [unfold len in Hl; simpl in Hlen; lia|].
  assert (s ≠ []) as Hs.
  { apply (sentence_no_boundary text).
    eapply elem_of_sublist; [|exact Hsub]. left. }
  destruct chosen; simpl; [done|]. by destruct s.
Qed.

(** X22: with [max_sentences] 0 the summary of a text that has a sentence
    is the empty string. *)
Theorem X22_no_sentence_asked_for :
  ∀ text : str,
    _tokenize_sentences text ≠ [] → summarize stopwords text 0 = [].
Proof.
  intros text Hne.
  assert (¬ len (_tokenize_sentences text) ≤ 0) as Hl.
  { unfold len. destruct (_tokenize_sentences text); [done|]. simpl. lia. }
  destruct (summarize_sublist text 0 Hl) as (chosen & -> & _ & Hlen).
  unfold slice_length in Hlen. simpl in Hlen. by destruct chosen.
Qed.
End SummaryFacts.

Section SummaryCount.
Context {U : Unicode} {F : UnicodeFacts}.
Variable stopwords : gset str.

Lemma len_tokenize_sentences_le s :
  len (_tokenize_sentences s) ≤
    Z.of_nat (match strip s with [] => O | t => S (boundaries t) end).
Proof.
  destruct (decide (strip s = [])) as [He|Hne].
  { rewrite tokenize_sentences_blank, He by done. done. }
  rewrite tokenize_sentences_pieces by done. unfold split_sentences, len.
  rewrite length_split_go by done. simpl (option_list None ++ _).
  destruct (strip s); [done|]. lia.
Qed.

Lemma summary_sentences_le text n :
  0 ≤ n → len (_tokenize_sentences (summarize stopwords text n)) ≤ n.
Proof.
  intros Hn.
  destruct (decide (len (_tokenize_sentences text) ≤ n)) as [Hl|Hl].
  { by rewrite summarize_early. }
  destruct (summarize_sublist stopwords text n Hl) as (chosen & -> & Hsub & Hlen).
  unfold slice_length in Hlen. destruct (Z.leb_spec 0 n); [|lia].
  etrans; [apply len_tokenize_sentences_le|].
  destruct (strip (join (lit " ") chosen)) as [|c t] eqn:Hs; [lia|].
  rewrite <- Hs.
  pose proof (boundaries_strip (join (lit " ") chosen)) as H1.
  assert (Forall (λ p, has_boundary p = false) chosen) as Hnb.
  { apply Forall_forall. intros p Hp.
    apply (sentence_no_boundary text). by eapply elem_of_sublist. }
  pose proof (boundaries_join chosen Hnb) as H2.
  destruct chosen as [|p chosen]; [by rewrite Hs in *|].
  simpl length in *. unfold len in Hl. lia.
Qed.

(** X18: for [max_sentences] of 0 or more the summary has at most
    [max_sentences] sentences, and to summarise it again with the same
    [max_sentences] gives it back unchanged. *)
Theorem X18_summary_is_short_and_stable :
  ∀ (text : str) (max_sentences : Z),
    0 ≤ max_sentences →
    len (_tokenize_sentences (summarize stopwords text max_sentences))
      ≤ max_sentences ∧
    summarize stopwords (summarize stopwords text max_sentences) max_sentences =
      summarize stopwords text max_sentences.
Proof.
  intros text n Hn. pose proof (summary_sentences_le text n Hn) as Hle.
  split; [done|]. unfold summarize at 1.
  destruct (len _ <=? n) eqn:E; [done|lia].
Qed.
End SummaryCount.

Section SummaryOrder.
Context {U : Unicode}.
Variable stopwords : gset str.

Lemma fmap_score_sentences sentences :
  (λ x : Z * Z * str, x.2) <$> score_sentences stopwords sentences = sentences.
Proof.
  apply list_eq. intros i. rewrite list_lookup_fmap, score_sentences_lookup.
  by destruct (sentences !! i).
Qed.

(** X21: when no sentence scores higher than an earlier one, as when all
    scores are equal, the summary is the first [max_sentences] sentences of
    the text. *)
Theorem X21_earlier_sentences_win_ties :
  ∀ (text : str) (max_sentences : Z),
    let sentences := _tokenize_sentences text in
    let score := sentence_score stopwords sentences in
    0 ≤ max_sentences < len sentences →
    (∀ i j si sj, (i < j)%nat → sentences !! i = Some si →
                  sentences !! j = Some sj → score sj ≤ score si) →
    summarize stopwords text max_sentences =
      join (lit " ") (take (Z.to_nat max_sentences) sentences).
Proof.
  intros text n sentences score [Hn0 Hn] Hmono. unfold summarize.
  fold sentences. destruct (len sentences <=? n) eqn:E; [lia|]. clear E.
  rewrite slice_to_take by done.
  set (L := score_sentences stopwords sentences).
  assert (∀ i x, L !! i = Some x →
            ∃ s, sentences !! i = Some s ∧ x = (score s, Z.of_nat i, s)) as HL.
  { intros i x Hi. unfold L in Hi. rewrite score_sentences_lookup in Hi.
    destruct (sentences !! i) as [s|]; [|done]. injection Hi as <-. by exists s. }
  rewrite (sorted_id pair_lt _ L).
  - rewrite (sorted_id Z.ltb _ (take (Z.to_nat n) L)).
    + rewrite fmap_take. unfold L. by rewrite fmap_score_sentences.
    + apply (StronglySorted_app_1_l _ _ (drop (Z.to_nat n) L)).
      rewrite take_drop. apply StronglySorted_lookup_2.
      intros i j x y Hij (s & _ & ->)%HL (s' & _ & ->)%HL.
      unfold key_le. simpl. lia.
  - apply StronglySorted_lookup_2.
    intros i j x y Hij (s & Hs & ->)%HL (s' & Hs' & ->)%HL.
    unfold key_le. apply pair_lt_false. simpl.
    specialize (Hmono i j s s' Hij Hs Hs'). lia.
Qed.

Lemma occurrences_nonneg word ws : 0 ≤ occurrences word ws.
Proof. unfold occurrences. apply len_nonneg. Qed.

Lemma occurrences_elem word ws : word ∈ ws → 1 ≤ occurrences word ws.
Proof.
  induction 1 as [w ws|w y ws Hin IH]; rewrite occurrences_cons.
  - rewrite decide_True by done. pose proof (occurrences_nonneg w ws). lia.
  - destruct (decide (y = w)); lia.
Qed.

Lemma occurrences_bind word (f : str → list str) sentences s :
  s ∈ sentences → occurrences word (f s) ≤ occurrences word (sentences ≫= f).
Proof.
  induction 1 as [s sentences|s y sentences Hin IH];
    rewrite bind_cons, occurrences_app.
  - pose proof (occurrences_nonneg word (sentences ≫= f)). lia.
  - pose proof (occurrences_nonneg word (f y)). lia.
Qed.

Lemma sum_Z_ge (l : list Z) : Forall (λ x, 1 ≤ x) l → len l ≤ sum_Z l.
Proof.
  induction 1 as [|x l Hx Hl IH]; [done|].
  unfold len in *. cbn [sum_Z foldr length]. fold (sum_Z l). lia.
Qed.

(** X23: the score of a sentence is at least the number of its words that
    are no stopwords, so it is 0 exactly when the sentence has no such
    word. *)
Theorem X23_score_counts_the_content_words :
  ∀ (sentences : list str) (score idx : Z) (sentence : str),
    (score, idx, sentence) ∈ score_sentences stopwords sentences →
    len (content_words stopwords sentence) ≤ score ∧
    (score = 0 ↔ content_words stopwords sentence = []).
Proof.
  intros sentences score idx sentence (i & s & Hs & He)%elem_of_score_sentences.
  injection He as -> -> ->.
  assert (len (content_words stopwords s)
          ≤ sentence_score stopwords sentences s) as Hle.
  { unfold sentence_score.
    replace (len (content_words stopwords s))
      with (len (global_frequency stopwords sentences <$> content_words stopwords s))
      by (unfold len; by rewrite length_fmap).
    apply sum_Z_ge, Forall_fmap, Forall_forall. intros w Hw. simpl.
    unfold global_frequency.
    etrans; [apply (occurrences_elem w _ Hw)|].
    apply occurrences_bind. by eapply list_elem_of_lookup_2. }
  split; [done|]. split.
  - intros H0. rewrite H0 in Hle. unfold len in Hle.
    destruct (content_words stopwords s); [done|]. simpl in Hle. lia.
  - intros He. unfold sentence_score. by rewrite He.
Qed.
End SummaryOrder.

(** ** The routes *)

Section RouteFacts.
Import schemas routes.
Context {U : Unicode}.

(** X24: [generate_text] with a request within the bounds of the schema
    and a table that is not empty, whose words are not empty and without
    whitespace, as in every table [__init__] builds.  A prompt of whitespace
    only is refused with status 400 before the generator is called, so that
    no random draw is made; any other prompt is answered with a body, never
    with an exception of the generator, and the text of the body has at
    least [max_length] words and at least two, and no more than 201 unless
    the prompt has more tokens.  The words of the text are those [split()]
    finds in it.  The table is left as it was. *)
Theorem X24_generate_text_answers `{!WordFacts} :
  ∀ (payload : GenerateRequest) (w : world),
    valid_generate payload = true →
    chain w ≠ [] →
    table_all wordlike (chain w) →
    match strip (prompt payload) with
    | [] =>
        generate_text payload w =
          (HTTPException 400 "Prompt must not be empty.", w)
    | _ :: _ =>
        ∃ s w',
          generate_text payload w = (Body {| generated_text := s |}, w') ∧
          chain w' = chain w ∧
          Z.max 2 (max_length payload) ≤ len (split_words s) ∧
          len (split_words s) ≤
            Z.max (len (findall_words (lower (prompt payload)))) 201
    end.
Proof.
  intros payload w Hv Hne Hd. unfold generate_text, valid_generate in *.
  apply andb_true_iff in Hv as [Hlo Hhi].
  destruct (strip (prompt payload)) as [|c t]; [done|].
  destruct (generate_split (prompt payload) (max_length payload) w Hne Hd)
    as (ws & w' & Hg & Hrun & Hsplit & Hmax & Htwo).
  pose proof (generate_words_at_most _ _ _ _ _ Hg) as Hmost.
  pose proof (read_only_generate (prompt payload) (max_length payload) w) as Hro.
  rewrite Hrun in *. simpl in Hro.
  eexists _, w'. split; [done|]. split; [done|].
  rewrite Hsplit, len_capitalized. lia.
Qed.

Context {F : UnicodeFacts}.

(** X25: [summarize_text] with a request within the bounds of the schema.
    A text of whitespace only is refused with status 400; any other text is
    answered with a summary that is not empty and has at most
    [max_sentences] sentences. *)
Theorem X25_summarize_text_answers :
  ∀ payload : SummarizeRequest,
    valid_summarize payload = true →
    match strip (text payload) with
    | [] => summarize_text payload = HTTPException 400 "Text must not be empty."
    | _ :: _ =>
        ∃ s,
          summarize_text payload = Body {| summary := s |} ∧
          s ≠ [] ∧
          len (_tokenize_sentences s) ≤ max_sentences payload
    end.
Proof.
  intros payload Hv. unfold summarize_text, valid_summarize in *.
  apply andb_true_iff in Hv as [Hlo Hhi].
  destruct (strip (text payload)) as [|c t] eqn:Hs; [done|].
  eexists. split; [done|]. split; [|apply summary_sentences_le; lia].
  set (n := max_sentences payload) in *.
  destruct (decide (len (_tokenize_sentences (text payload)) ≤ n)) as [Hl|Hl].
  { rewrite summarize_early by done. intros He. by rewrite He in Hs. }
  destruct (summarize_sublist text_summarizer (text payload) n Hl)
    as (chosen & -> & Hsub & Hlen).
  unfold slice_length in Hlen. destruct (Z.leb_spec 0 n); [|lia].
  destruct chosen as [|s chosen]; [unfold len in Hl; simpl in Hlen; lia|].
  assert (s ≠ []) as Hne.
  { apply (sentence_no_boundary (text payload)).
    eapply elem_of_sublist; [|exact Hsub]. left. }
  destruct chosen; simpl; [done|]. by destruct s.
Qed.
End RouteFacts.

(** ** Witnesses on concrete texts *)

Lemma X18_witness :
  len (_tokenize_sentences (U := ascii_tables)
         (summarize (U := ascii_tables) text_summarizer
            (lit "Cats purr. Dogs bark and dogs run. Cats and dogs play. Birds sing.") 2))
    ≤ 2 ∧
  summarize (U := ascii_tables) text_summarizer
    (summarize (U := ascii_tables) text_summarizer
       (lit "Cats purr. Dogs bark and dogs run. Cats and dogs play. Birds sing.") 2) 2 =
  summarize (U := ascii_tables) text_summarizer
    (lit "Cats purr. Dogs bark and dogs run. Cats and dogs play. Birds sing.") 2.
Proof.
  apply (X18_summary_is_short_and_stable (U := ascii_tables)). lia.
Defined.

Lemma X20_witness :
  summarize (U := ascii_tables) text_summarizer
    (lit "Cats purr. Dogs bark and dogs run. Cats and dogs play. Birds sing.") 1 ≠ [].
Proof.
  apply (X20_summary_is_not_empty (U := ascii_tables)).
  - lia.
  - vm_compute. discriminate.
Defined.

Lemma X21_witness :
  summarize (U := ascii_tables) text_summarizer
    (lit "Dogs bark and dogs run. Cats purr. The end.") 2 =
  join (lit " ")
    (take (Z.to_nat 2)
       (_tokenize_sentences (U := ascii_tables)
          (lit "Dogs bark and dogs run. Cats purr. The end."))).
Proof.
  apply (X21_earlier_sentences_win_ties (U := ascii_tables)).
  - vm_compute. split; [discriminate|reflexivity].
  - intros i j si sj Hij Hi Hj.
    destruct i as [|[|[|i]]]; destruct j as [|[|[|j]]];
      try lia; try discriminate Hi; try discriminate Hj;
      injection Hi as <-; injection Hj as <-; vm_compute; discriminate.
Defined.

Lemma X22_witness :
  summarize (U := ascii_tables) text_summarizer (lit "A. B.") 0 = [].
Proof.
  apply (X22_no_sentence_asked_for (U := ascii_tables)). vm_compute. discriminate.
Defined.

Lemma X23_witness :
  len (content_words (U := ascii_tables) text_summarizer (lit "Cats purr.")) ≤ 3 ∧
  (3 = 0 ↔ content_words (U := ascii_tables) text_summarizer (lit "Cats purr.") = []).
Proof.
  apply (X23_score_counts_the_content_words (U := ascii_tables) text_summarizer
           [lit "Cats purr."; lit "The cats."] 3 0 (lit "Cats purr.")).
  vm_compute. left.
Defined.

Lemma X24_witness :
  ∃ s w',
    routes.generate_text (U := ascii_tables)
      {| schemas.prompt := lit "Once upon a"; schemas.max_length := 5 |} loaded =
      (routes.Body {| schemas.generated_text := s |}, w') ∧
    chain w' = chain loaded ∧
    Z.max 2 5 ≤ len (split_words (U := ascii_tables) s) ∧
    len (split_words (U := ascii_tables) s) ≤
      Z.max (len (findall_words (U := ascii_tables)
                    (@lower ascii_tables (lit "Once upon a")))) 201.
Proof.
  apply (X24_generate_text_answers (U := ascii_tables)
           {| schemas.prompt := lit "Once upon a"; schemas.max_length := 5 |} loaded).
  - reflexivity.
  - vm_compute. discriminate.
  - exact text_generator_wordlike.
Defined.

Lemma X25_witness :
  ∃ s,
    routes.summarize_text (U := ascii_tables)
      {| schemas.text := lit "Cats purr. Dogs bark. Birds sing.";
         schemas.max_sentences := 2 |} =
      routes.Body {| schemas.summary := s |} ∧
    s ≠ [] ∧
    len (_tokenize_sentences (U := ascii_tables) s) ≤ 2.
Proof.
  apply (X25_summarize_text_answers (U := ascii_tables)
           {| schemas.text := lit "Cats purr. Dogs bark. Birds sing.";
              schemas.max_sentences := 2 |}).
  reflexivity.
Defined.

(** ** A negative number of sentences *)

Section NegativeSlice.
Context {U : Unicode}.
Variable stopwords : gset str.

(** X26: a negative [max_sentences] is not refused.  It counts from the
    end of the ranking: the summary is the join of sentences of the text,
    in the order of the text, as many as the text has less [-max_sentences],
    and none when the text has no more than that. *)
Theorem X26_negative_max_sentences :
  ∀ (text : str) (max_sentences : Z),
    max_sentences < 0 →
    ∃ chosen : list str,
      summarize stopwords text max_sentences = join (lit " ") chosen ∧
      chosen `sublist_of` _tokenize_sentences text ∧
      len chosen = Z.max 0 (len (_tokenize_sentences text) + max_sentences).
Proof.
  intros text n Hn.
  assert (¬ len (_tokenize_sentences text) ≤ n) as Hl.
  { pose proof (len_nonneg (_tokenize_sentences text)). lia. }
  destruct (summarize_sublist stopwords text n Hl) as (chosen & Hsum & Hsub & Hlen).
  exists chosen. split; [done|]. split; [done|].
  unfold len. rewrite Hlen. unfold slice_length.
  destruct (Z.leb_spec 0 n); lia.
Qed.
End NegativeSlice.

Lemma X26_witness :
  ∃ chosen : list str,
    summarize (U := ascii_tables) text_summarizer
      (lit "Cats purr. Dogs bark. Birds sing.") (-1) = join (lit " ") chosen ∧
    chosen `sublist_of`
      _tokenize_sentences (U := ascii_tables) (lit "Cats purr. Dogs bark. Birds sing.") ∧
    len chosen =
      Z.max 0 (len (_tokenize_sentences (U := ascii_tables)
                      (lit "Cats purr. Dogs bark. Birds sing.")) + -1).
Proof.
  apply (X26_negative_max_sentences (U := ascii_tables)). lia.
Defined.

Example summarize_negative :
  summarize (U := ascii_tables) text_summarizer
    (lit "Cats purr. Dogs bark. Birds sing.") (-1) = lit "Cats purr. Dogs bark.".
Proof. by vm_compute. Qed.
